(** * bitcounts: counting the one-bits of every regular file under a root

    A shallow embedding of [main.go] and the properties its description
    states.  The program is modelled as the tests use it, with the error
    log and the shared read buffer; the read loop of the earlier version,
    which reads into a local buffer of 1000 bytes, is in the module [Old].

    Conventions.
    - Go's [int] is a 64-bit two's-complement integer: a [Z] together with
      [wrap64], applied after every addition the source performs.
    - A [byte] is [Stdlib.Init.Byte.byte]; the inner loop works on its
      unsigned value, a [uint8] written as an [N] below 256.
    - [reader.Read(bc.inbuf)] is the boundary to the [bufio] and [os]
      packages: a stream is the script of results that successive calls
      return.
    - [fs.WalkDir] and [os.Open] are modelled after their documented
      behaviour over an explicit file-system value. *)

From Stdlib Require Import ZArith NArith String Ascii List Lia Bool.
From Stdlib Require Import Init.Byte Strings.Byte.
From Equations Require Import Equations.
Import ListNotations.

Local Open Scope Z_scope.

(** ** Machine integers *)

Module GoInt.

Definition min_int : Z := - 2 ^ 63.
Definition max_int : Z := 2 ^ 63 - 1.

(** Two's-complement wrap-around of a 64-bit signed integer. *)
Definition wrap64 (z : Z) : Z := (z + 2 ^ 63) mod 2 ^ 64 - 2 ^ 63.

(** [a + b] on Go's [int]. *)
Definition add (a b : Z) : Z := wrap64 (a + b).

Definition in_range (z : Z) : Prop := min_int <= z <= max_int.

End GoInt.

(** ** Bytes and the inner loop *)

Module U8.

Local Open Scope N_scope.

(** [a - b] on [uint8]. *)
Definition sub (a b : N) : N := (a + 256 - b mod 256) mod 256.

(** [a & b] on [uint8]. *)
Definition and (a b : N) : N := N.land a b.

End U8.

(** [for ; b != 0; c++ { b &= b - 1 }], entered with the current [b] and
    [c]; the value is [c] when the loop is left. *)
Equations? popcount_loop (b : N) (c : Z) : Z by wf (N.to_nat b) lt :=
  popcount_loop b c with N.eq_dec b 0 => {
    | left _ := c;
    | right _ := popcount_loop (U8.and b (U8.sub b 1)) (GoInt.add c 1) }.
Proof.
  unfold U8.and, U8.sub.
  assert (H : (N.land b ((b + 256 - 1 mod 256) mod 256) < b)%N).
  { assert (Hm : ((b + 256 - 1 mod 256) mod 256 < b)%N).
    { change (1 mod 256)%N with 1%N.
      destruct (N.lt_ge_cases b 256) as [Hlt | Hge].
      - replace (b + 256 - 1)%N with (N.pred b + 1 * 256)%N by lia.
        rewrite N.Div0.mod_add, N.mod_small by lia. lia.
      - eapply N.lt_le_trans; [apply N.mod_lt; lia | exact Hge]. }
    eapply N.le_lt_trans; [| exact Hm].
    apply N.land_le_r. }
  lia.
Qed.

(** ** Errors

    The [error] values the program can meet: the sentinels of [io] and
    [io/fs], a plain message, and the [*fs.PathError] that [os.Open] and the
    [os.DirFS] operations return. *)

Inductive error : Type :=
| EOF
| SkipDir
| SkipAll
| ErrString (msg : string)
| PathError (op path : string) (err : error).

Local Open Scope string_scope.

(** [err.Error()], which is also what the verb [%v] prints. *)
Fixpoint Error (e : error) : string :=
  match e with
  | EOF => "EOF"
  | SkipDir => "skip this directory"
  | SkipAll => "skip everything and stop the walk"
  | ErrString msg => msg
  | PathError op path err => op ++ " " ++ path ++ ": " ++ Error err
  end.

Definition is_EOF (e : error) : bool :=
  match e with EOF => true | _ => false end.

Definition is_SkipDir (e : error) : bool :=
  match e with SkipDir => true | _ => false end.

Definition is_SkipAll (e : error) : bool :=
  match e with SkipAll => true | _ => false end.

(** ** Streams

    One element of a stream is what one call of [reader.Read] has to offer:
    some bytes and an error value ([None] is Go's [nil]).  A stream whose
    script is used up answers [0, io.EOF], as a reader at the end of its
    input does; a reader that answers [0, nil] for ever, as a
    [bufio.Reader] does for a destination of length zero, has no script.
    With a destination of [BUFF_SIZE] bytes the [bufio.Reader] hands the
    result of the file's own [Read] through unchanged. *)

Record read_result : Type := mkRead {
  rr_data : list byte;
  rr_err : option error
}.

Definition stream : Type := list read_result.

(** Go's built-in [copy(dst, src)]: the new contents of [dst] and the
    number of bytes copied, the smaller of the two lengths. *)
Definition copy (dst src : list byte) : list byte * nat :=
  ((firstn (length dst) src ++ skipn (length src) dst)%list,
   Nat.min (length src) (length dst)).

(** [reader.Read(p)] answering with [r]: [p] afterwards, [n] and [err].
    A reader never reports more than [len(p)] bytes. *)
Definition Read (r : read_result) (p : list byte) : list byte * nat * option error :=
  let '(p', n) := copy p (rr_data r) in (p', n, rr_err r).

(** ** The accumulator *)

Definition BUFF_SIZE : Z := 1000000.

Record bitcounter : Type := mkBitcounter {
  bytesRead : Z;
  ones : Z;
  errs : list string;
  inbuf : list byte
}.

(** [make([]byte, n)]. *)
Definition make_bytes (n : Z) : list byte := repeat x00 (Z.to_nat n).

(** [&bitcounter{inbuf: make([]byte, BUFF_SIZE)}]. *)
Definition new_bitcounter : bitcounter :=
  {| bytesRead := 0; ones := 0; errs := []; inbuf := make_bytes BUFF_SIZE |}.

(** The body of [for _, b := range bc.inbuf[:bread]], folded over the
    slice: [c := 0], the inner loop, [bc.ones += c]. *)
Definition range_bytes (bs : list byte) (ones0 : Z) : Z :=
  fold_left (fun acc b => GoInt.add acc (popcount_loop (Byte.to_N b) 0)) bs ones0.

(** One pass through the body of the read loop with [err == nil]. *)
Definition loop_body (bc : bitcounter) (bread : nat) : bitcounter :=
  {| bytesRead := GoInt.add (bytesRead bc) (Z.of_nat bread);
     ones := range_bytes (firstn bread (inbuf bc)) (ones bc);
     errs := errs bc;
     inbuf := inbuf bc |}.

(** [for ; err != io.EOF; bread, err = reader.Read(bc.inbuf) { ... }],
    entered at the test of its condition with the current [bread] and
    [err].  The value is the accumulator, what is left of the stream, and
    the error [countFile] returns. *)
Fixpoint countFile_loop (s : stream) (bc : bitcounter) (bread : nat)
    (err : option error) {struct s} : bitcounter * stream * option error :=
  match err with
  | Some e =>
      if is_EOF e then (bc, s, None) else (bc, s, Some e)
  | None =>
      let bc1 := loop_body bc bread in
      match s with
      | [] =>
          let '(p, _, _) := Read (mkRead [] (Some EOF)) (inbuf bc1) in
          ({| bytesRead := bytesRead bc1; ones := ones bc1;
              errs := errs bc1; inbuf := p |}, [], None)
      | r :: s' =>
          let '(p, n, err') := Read r (inbuf bc1) in
          countFile_loop s'
            {| bytesRead := bytesRead bc1; ones := ones bc1;
               errs := errs bc1; inbuf := p |} n err'
      end
  end.

(** [func (bc *bitcounter) countFile(infile *os.File) error]. *)
Definition countFile (bc : bitcounter) (infile : stream)
    : bitcounter * stream * option error :=
  countFile_loop infile bc 0%nat None.

(** ** The read loop of the earlier version

    [countFile] as first written: the accumulator has the two totals only,
    and the buffer is a local slice of 1000 bytes. *)

Module Old.

Record bitcounter : Type := mkBitcounter {
  bytesRead : Z;
  ones : Z
}.

Fixpoint countFile_loop (s : stream) (bc : bitcounter) (inbuf : list byte)
    (bread : nat) (err : option error) {struct s}
    : bitcounter * stream * option error :=
  match err with
  | Some e =>
      if is_EOF e then (bc, s, None) else (bc, s, Some e)
  | None =>
      let bc1 := {| bytesRead := GoInt.add (bytesRead bc) (Z.of_nat bread);
                    ones := range_bytes (firstn bread inbuf) (ones bc) |} in
      match s with
      | [] => (bc1, [], None)
      | r :: s' =>
          let '(p, n, err') := Read r inbuf in
          countFile_loop s' bc1 p n err'
      end
  end.

Definition countFile (bc : bitcounter) (infile : stream)
    : bitcounter * stream * option error :=
  countFile_loop infile bc (make_bytes 1000) 0%nat None.

End Old.

(** ** The file system and [fs.WalkDir] *)

(** The type bits of an [fs.FileMode]. *)
Inductive FileMode : Type :=
| ModeRegular | ModeDir | ModeSymlink | ModeNamedPipe | ModeSocket
| ModeDevice | ModeCharDevice | ModeIrregular.

Definition IsRegular (m : FileMode) : bool :=
  match m with ModeRegular => true | _ => false end.

Record DirEntry : Type := mkDirEntry {
  Name : string;
  Type_ : FileMode
}.

Definition IsDir (d : DirEntry) : bool :=
  match Type_ d with ModeDir => true | _ => false end.

(** An entry of the tree: its name and type, and what [fs.ReadDir] gives
    for it (the entries it could read, sorted by name, and its error).
    [fs.WalkDir] reads only directories. *)
#[local] Unset Elimination Schemes.
Inductive fsnode : Type :=
| Node (name : string) (mode : FileMode) (entries : list fsnode)
       (rderr : option error).
#[local] Set Elimination Schemes.

(** The [fs.DirEntry] of a node. *)
Definition entry_of (nd : fsnode) : DirEntry :=
  match nd with Node n m _ _ => mkDirEntry n m end.

(** [path.Join(name, elem)] for a clean [name] and a plain [elem]. *)
Definition path_Join (name elem : string) : string :=
  if String.eqb name "." then elem else name ++ "/" ++ elem.

Section WalkDir.

Context {S : Type}.

(** [fs.WalkDirFunc], with the state the closure works on made explicit. *)
Definition WalkDirFunc : Type :=
  string -> option DirEntry -> option error -> S -> S * option error.

Variable fn : WalkDirFunc.

(** The error [walkDir] returns for the error [e] of the callback. *)
Definition skipdir_to_nil (d : DirEntry) (e : error) : option error :=
  if is_SkipDir e && IsDir d then None else Some e.

(** [fs.walkDir(fsys, name, d, fn)]; [nd] stands for [d] and for what
    [fsys] holds below [name]. *)
Fixpoint walkDir (name : string) (nd : fsnode) (st : S) {struct nd}
    : S * option error :=
  let d := entry_of nd in
  match fn name (Some d) None st with
  | (st1, Some e) => (st1, skipdir_to_nil d e)
  | (st1, None) =>
      if negb (IsDir d) then (st1, None)
      else
        match nd with
        | Node _ _ entries rderr =>
            let walk_entries :=
              fix walk_entries (dirs : list fsnode) (st : S)
                  : S * option error :=
                match dirs with
                | [] => (st, None)
                | nd1 :: dirs' =>
                    let name1 := path_Join name (Name (entry_of nd1)) in
                    match walkDir name1 nd1 st with
                    | (st', Some e) =>
                        if is_SkipDir e then (st', None) else (st', Some e)
                    | (st', None) => walk_entries dirs' st'
                    end
                end in
            match rderr with
            | Some e =>
                match fn name (Some d) (Some e) st1 with
                | (st2, Some e') => (st2, skipdir_to_nil d e')
                | (st2, None) => walk_entries entries st2
                end
            | None => walk_entries entries st1
            end
        end
  end.

(** [fs.WalkDir(fsys, root, fn)]; [stat] is the result of
    [fs.Stat(fsys, root)] together with the tree below it. *)
Definition WalkDir (stat : error + fsnode) (root : string) (st : S)
    : S * option error :=
  let '(st', err) :=
    match stat with
    | inl e => fn root None (Some e) st
    | inr nd => walkDir root nd st
    end in
  match err with
  | Some e => if is_SkipDir e || is_SkipAll e then (st', None) else (st', Some e)
  | None => (st', None)
  end.

End WalkDir.

(** ** The scan *)

(** What the program sees of its environment: for a root, the result of
    [fs.Stat(os.DirFS(root), ".")] with the tree found there; for a path,
    the result of opening it (the cause of the failure, or the stream of
    its reads). *)
Record world : Type := mkWorld {
  dirfs : string -> error + fsnode;
  files : string -> error + stream
}.

(** [os.Open(name)]: a failure is a [*PathError] of the operation "open". *)
Definition os_Open (w : world) (name : string) : error + stream :=
  match files w name with
  | inl cause => inl (PathError "open" name cause)
  | inr s => inr s
  end.

(** The state of a run: the accumulator and the lines written to the
    standard output. *)
Record run : Type := mkRun {
  bc : bitcounter;
  stdout : list string
}.

(** [bc.errs = append(bc.errs, msg)]. *)
Definition append_err (st : run) (msg : string) : run :=
  {| bc := {| bytesRead := bytesRead (bc st); ones := ones (bc st);
              errs := (errs (bc st) ++ [msg])%list; inbuf := inbuf (bc st) |};
     stdout := stdout st |}.

Definition newline : string := String (ascii_of_nat 10) EmptyString.

(** [fullPath] of the callback. *)
Definition full_path (root path : string) : string :=
  if String.eqb path "." then root else root ++ "/" ++ path.

(** The function literal passed to [fs.WalkDir] in [count].  The deferred
    [in.Close()] changes nothing of the state kept here. *)
Definition walkFn (w : world) (root : string) : @WalkDirFunc run :=
  fun path d err st =>
    match err with
    | Some e =>
        (append_err st ("walk error for " ++ path ++ ": " ++ Error e), None)
    | None =>
        match d with
        | None => (append_err st ("nil fs.DirEntry: " ++ path), None)
        | Some d =>
            if IsRegular (Type_ d) then
              let fullPath := full_path root path in
              let st1 := {| bc := bc st;
                            stdout := (stdout st ++ [(fullPath ++ newline)%string])%list |} in
              match os_Open w fullPath with
              | inl e => (append_err st1 (Error e), None)
              | inr infile =>
                  let '(bc', _, countErr) := countFile (bc st1) infile in
                  let st2 := {| bc := bc'; stdout := stdout st1 |} in
                  match countErr with
                  | Some ce =>
                      (append_err st2
                         ("error counting file " ++ fullPath ++ ": " ++ Error ce),
                       None)
                  | None => (st2, None)
                  end
              end
            else (st, None)
        end
    end.

(** [func (bc *bitcounter) count(root string) error]. *)
Definition count (w : world) (st : run) (root : string) : run * option error :=
  WalkDir (walkFn w root) (dirfs w root) "." st.

(** How [main] ends: it returns after the report, or it panics. *)
Inductive exit : Type :=
| Returned (st : run)
| Panicked (e : error).

(** [main], up to the two report lines, whose percentages are floating
    point and are left out. *)
Definition main_after (r : run * option error) : exit :=
  match r with
  | (_, Some e) => Panicked e
  | (st, None) => Returned st
  end.

(** The state [main] and the tests start from. *)
Definition start : run := {| bc := new_bitcounter; stdout := [] |}.

Definition main (w : world) : exit :=
  main_after (count w start ".").


(** ** The reference population count *)

Definition bit (n : N) (i : N) : Z := if N.testbit n i then 1 else 0.

(** The number of ones among the eight bits of a byte value. *)
Definition popcount (n : N) : Z :=
  bit n 0 + bit n 1 + bit n 2 + bit n 3 + bit n 4 + bit n 5 + bit n 6 + bit n 7.

(** The number of ones in a sequence of bytes. *)
Definition popcount_bytes (bs : list byte) : Z :=
  fold_right (fun b acc => popcount (Byte.to_N b) + acc) 0 bs.

(** One pass of the inner loop: [b &= b - 1]. *)
Definition clear_lowest (b : N) : N := U8.and b (U8.sub b 1).

(** ** What a stream contributes

    Read off the script of a stream, without running the loop: the bytes of
    the reads that came back with a nil error before the first read with an
    error ([cap] is the length of the buffer, which bounds a read), the
    error of that read, and the reads behind it. *)

Fixpoint tallied (cap : nat) (s : stream) : list byte :=
  match s with
  | [] => []
  | r :: s' =>
      match rr_err r with
      | None => (firstn cap (rr_data r) ++ tallied cap s')%list
      | Some _ => []
      end
  end.

Fixpoint first_error (s : stream) : option error :=
  match s with
  | [] => Some EOF
  | r :: s' =>
      match rr_err r with
      | None => first_error s'
      | Some e => Some e
      end
  end.

Fixpoint unread (s : stream) : stream :=
  match s with
  | [] => []
  | r :: s' =>
      match rr_err r with
      | None => unread s'
      | Some _ => s'
      end
  end.

(** The bytes the reads [pre] deliver into a buffer of length [cap]. *)
Definition delivered (cap : nat) (pre : stream) : list byte :=
  concat (map (fun x => firstn cap (rr_data x)) pre).

(** The failure of a stream: its first error, unless that is [io.EOF]. *)
Definition stream_failure (s : stream) : option error :=
  match first_error s with
  | Some e => if is_EOF e then None else Some e
  | None => None
  end.

(** All the bytes a stream has to offer. *)
Definition stream_bytes (s : stream) : Z :=
  fold_right (fun r acc => Z.of_nat (length (rr_data r)) + acc) 0 s.

(** The stream that delivers the given chunks, each with a nil error, and
    then ends. *)
Definition chunked (chunks : list (list byte)) : stream :=
  (map (fun c => mkRead c None) chunks ++ [mkRead [] (Some EOF)])%list.

(** Induction over a tree, with the property at hand for every entry of a
    directory. *)
Fixpoint fsnode_ind (P : fsnode -> Prop)
    (H : forall name mode entries rderr,
        Forall P entries -> P (Node name mode entries rderr))
    (nd : fsnode) {struct nd} : P nd :=
  match nd with
  | Node name mode entries rderr =>
      H name mode entries rderr
        ((fix all (l : list fsnode) : Forall P l :=
            match l with
            | [] => Forall_nil P
            | nd1 :: l' => Forall_cons nd1 (fsnode_ind P H nd1) (all l')
            end) entries)
  end.

(** ** The calls of the callback

    The calls [fs.WalkDir] makes, in order, when every call returns nil. *)

Inductive event : Type :=
| Ev (path : string) (d : option DirEntry) (err : option error).

Fixpoint walk_events (name : string) (nd : fsnode) {struct nd} : list event :=
  let d := entry_of nd in
  (Ev name (Some d) None ::
   if negb (IsDir d) then []
   else
     match nd with
     | Node _ _ entries rderr =>
         match rderr with
         | Some e => [Ev name (Some d) (Some e)]
         | None => []
         end ++
         flat_map (fun nd1 => walk_events (path_Join name (Name (entry_of nd1))) nd1)
                  entries
     end)%list.

Definition WalkDir_events (stat : error + fsnode) (root : string) : list event :=
  match stat with
  | inl e => [Ev root None (Some e)]
  | inr nd => walk_events root nd
  end.

(** A callback at one event, its result dropped. *)
Definition call {S : Type} (fn : @WalkDirFunc S) (st : S) (ev : event) : S :=
  match ev with Ev path d err => fst (fn path d err st) end.

(** The callback of [count] at one event. *)
Definition step (w : world) (root : string) : run -> event -> run :=
  call (walkFn w root).

(** The failures the description names. *)
Inductive failure : Type :=
| WalkError (path : string) (e : error)
| NilEntry (path : string)
| OpenError (fullPath : string) (cause : error)
| ReadError (fullPath : string) (e : error).

(** The failure an event is, if it is one, read off the event and the
    world without running the callback. *)
Definition failure_of (w : world) (root : string) (ev : event) : option failure :=
  match ev with
  | Ev path d err =>
      match err, d with
      | Some e, _ => Some (WalkError path e)
      | None, None => Some (NilEntry path)
      | None, Some d =>
          if IsRegular (Type_ d) then
            match files w (full_path root path) with
            | inl cause => Some (OpenError (full_path root path) cause)
            | inr s =>
                match stream_failure s with
                | Some e => Some (ReadError (full_path root path) e)
                | None => None
                end
            end
          else None
      end
  end.

Definition failure_path (f : failure) : string :=
  match f with
  | WalkError path _ | NilEntry path => path
  | OpenError fullPath _ | ReadError fullPath _ => fullPath
  end.

Definition failure_cause (f : failure) : string :=
  match f with
  | WalkError _ e | ReadError _ e => Error e
  | NilEntry _ => "nil fs.DirEntry"
  | OpenError _ cause => Error cause
  end.

(** The entry of the error log for a failure. *)
Definition log_entry (f : failure) : string :=
  match f with
  | WalkError path e => "walk error for " ++ path ++ ": " ++ Error e
  | NilEntry path => "nil fs.DirEntry: " ++ path
  | OpenError fullPath cause => "open " ++ fullPath ++ ": " ++ Error cause
  | ReadError fullPath e => "error counting file " ++ fullPath ++ ": " ++ Error e
  end.

Definition failures (w : world) (root : string) (evs : list event) : list failure :=
  flat_map (fun ev => match failure_of w root ev with
                      | Some f => [f]
                      | None => []
                      end) evs.

(** The bytes the streams opened at the events have to offer. *)
Definition event_bytes (w : world) (root : string) (ev : event) : Z :=
  match ev with
  | Ev path d err =>
      match err, d with
      | None, Some d =>
          if IsRegular (Type_ d) then
            match files w (full_path root path) with
            | inr s => stream_bytes s
            | inl _ => 0
            end
          else 0
      | _, _ => 0
      end
  end.

Definition scan_bytes (w : world) (root : string) (evs : list event) : Z :=
  fold_right (fun ev acc => event_bytes w root ev + acc) 0 evs.

(** The invariant of the two totals. *)
Definition invariant (b : bitcounter) : Prop :=
  0 <= ones b <= bytesRead b * 8.

(** [strings.Contains(s, substr)]. *)
Fixpoint Contains (s substr : string) : bool :=
  String.prefix substr s ||
  match s with
  | EmptyString => false
  | String _ s' => Contains s' substr
  end.

(** ** The directory of the tests *)

Module Scenario.

Definition hello : list byte := list_byte_of_string "hello".

(** What reading a file of the given contents gives: the contents, then
    [0, io.EOF]. *)
Definition file_stream (contents : list byte) : stream :=
  match contents with
  | [] => [mkRead [] (Some EOF)]
  | _ => [mkRead contents None; mkRead [] (Some EOF)]
  end.

Definition leaf (name : string) : fsnode := Node name ModeRegular [] None.

Definition tree : fsnode :=
  Node "." ModeDir
    [leaf "empty.txt"; leaf "file1.txt"; leaf "file2.bin";
     Node "subdir" ModeDir [leaf "subfile.txt"] None]
    None.

Definition root : string := "/tmp/bitcount_test_dir".

Definition enoent : error := ErrString "no such file or directory".

Definition w : world :=
  {| dirfs := fun r =>
       if String.eqb r root then inr tree
       else inl (PathError "stat" "." enoent);
     files := fun p =>
       if String.eqb p (root ++ "/file1.txt") then inr (file_stream hello)
       else if String.eqb p (root ++ "/file2.bin") then inr (file_stream [xff; x00])
       else if String.eqb p (root ++ "/empty.txt") then inr (file_stream [])
       else if String.eqb p (root ++ "/subdir/subfile.txt") then inr (file_stream [xaa])
       else inl enoent |}.

(** A second directory: one file whose second read fails, one that
    reads well. *)
Definition eio : error := ErrString "input/output error".

Definition flaky_stream : stream :=
  [mkRead hello None; mkRead [] (Some eio); mkRead [xff] None].

Definition flaky_tree : fsnode :=
  Node "." ModeDir [leaf "bad.bin"; leaf "good.bin"] None.

Definition w_flaky : world :=
  {| dirfs := fun r =>
       if String.eqb r root then inr flaky_tree
       else inl (PathError "stat" "." enoent);
     files := fun p =>
       if String.eqb p (root ++ "/bad.bin") then inr flaky_stream
       else if String.eqb p (root ++ "/good.bin") then inr (file_stream [xff])
       else inl enoent |}.

(** A stream of 1,152,921,504,607 full buffers of [0xFF], a little more
    than an exbibyte. *)
Definition full_buffer : list byte := repeat xff (Z.to_nat BUFF_SIZE).

Definition huge_stream : stream :=
  chunked (repeat full_buffer (Z.to_nat 1152921504607)).

(** The same bytes in 2,305,843,009,214 reads of half a buffer each. *)
Definition ff_chunks : list (list byte) :=
  repeat (repeat xff (Z.to_nat 500000)) (Z.to_nat 2305843009214).

End Scenario.

Definition panicked (x : exit) : bool :=
  match x with Panicked _ => true | Returned _ => false end.

(** ** The report of [main]

    The integer arguments of the last [Printf] of [main]: [total], which
    is [bc.bytesRead * 8], [bc.ones] and [total-bc.ones].  The percentages
    are floating point and are left out. *)

(** [a * b] and [a - b] on Go's [int]. *)
Definition int_mul (a b : Z) : Z := GoInt.wrap64 (a * b).
Definition int_sub (a b : Z) : Z := GoInt.wrap64 (a - b).

Record report : Type := mkReport {
  r_total : Z;
  r_ones : Z;
  r_zeroes : Z
}.

Definition main_report (b : bitcounter) : report :=
  let total := int_mul (bytesRead b) 8 in
  {| r_total := total; r_ones := ones b; r_zeroes := int_sub total (ones b) |}.

(** ** What a scan reads and prints, read off its events *)

(** The stream the callback of [count] opens at an event, if it opens
    one. *)
Definition event_stream (w : world) (root : string) (ev : event) : option stream :=
  match ev with
  | Ev path d err =>
      match err, d with
      | None, Some d =>
          if IsRegular (Type_ d) then
            match files w (full_path root path) with
            | inr s => Some s
            | inl _ => None
            end
          else None
      | _, _ => None
      end
  end.

(** The bytes tallied over the events, in order. *)
Definition scan_tallied (w : world) (root : string) (cap : nat) (evs : list event)
    : list byte :=
  flat_map (fun ev => match event_stream w root ev with
                      | Some s => tallied cap s
                      | None => []
                      end) evs.

(** The regular files among the events, as the callback meets them. *)
Definition is_regular_event (ev : event) : bool :=
  match ev with
  | Ev _ d err =>
      match err, d with
      | None, Some d => IsRegular (Type_ d)
      | _, _ => false
      end
  end.

Definition event_path (ev : event) : string :=
  match ev with Ev path _ _ => path end.

(** One line for each regular file, with its full path. *)
Definition progress_lines (root : string) (evs : list event) : list string :=
  map (fun ev => full_path root (event_path ev) ++ newline)
      (filter is_regular_event evs).

(** The position of the lowest one among the bits of [n]. *)
Definition lowest_set_bit (n : N) : N :=
  match n with
  | N0 => 0%N
  | Npos p =>
      (fix ctz (q : positive) : N :=
         match q with
         | xO q' => N.succ (ctz q')
         | _ => 0%N
         end) p
  end.

(** ** The scan of the earlier version

    [count] and [main] as first written, over [filepath.Walk]: the
    callback looks at [info] before anything else, returns the error of
    [os.Open], and drops the error of [countFile]. *)

Module OldScan.

Record run : Type := mkRun {
  bc : Old.bitcounter;
  stdout : list string
}.

(** What a call comes to: it returns an error value, or the program
    panics. *)
Inductive outcome (S : Type) : Type :=
| Ret (st : S) (err : option error)
| Panic (st : S) (msg : string).

Arguments Ret {S} st err.
Arguments Panic {S} st msg.

(** The message of the panic for a method call on a nil [os.FileInfo]. *)
Definition nil_dereference : string :=
  "runtime error: invalid memory address or nil pointer dereference".

(** [info.IsDir()]. *)
Definition info_IsDir (info : FileMode) : bool :=
  match info with ModeDir => true | _ => false end.

(** What [os.Lstat] and [readDirNames] find at a path and below it: the
    [Lstat] fails, or it gives the type of the entry, with the entries of
    a directory read (sorted by name) and the error of reading them. *)
#[local] Unset Elimination Schemes.
Inductive lnode : Type :=
| LFail (name : string) (e : error)
| LNode (name : string) (info : FileMode) (names : list lnode)
        (rderr : option error).
#[local] Set Elimination Schemes.

Definition lname (nd : lnode) : string :=
  match nd with LFail n _ | LNode n _ _ _ => n end.

Section Walk.

Context {S : Type}.

(** [filepath.WalkFunc]; [info] is [None] for a nil [os.FileInfo]. *)
Definition WalkFunc : Type :=
  string -> option FileMode -> option error -> S -> outcome S.

Variable fn : WalkFunc.

(** [filepath.walk(path, info, walkFn)]; for a node whose [Lstat] failed,
    the call [walkFn(path, nil, err)] that stands in its place. *)
Fixpoint walk (path : string) (nd : lnode) (st : S) {struct nd} : outcome S :=
  match nd with
  | LFail _ e => fn path None (Some e) st
  | LNode _ info names rderr =>
      if negb (info_IsDir info) then fn path (Some info) None st
      else
        match fn path (Some info) rderr st with
        | Panic st' msg => Panic st' msg
        | Ret st1 err1 =>
            match rderr, err1 with
            | None, None =>
                (fix loop (l : list lnode) (st : S) : outcome S :=
                   match l with
                   | [] => Ret st None
                   | nd1 :: l' =>
                       let filename := path_Join path (lname nd1) in
                       match nd1 with
                       | LFail _ _ =>
                           match walk filename nd1 st with
                           | Panic st' msg => Panic st' msg
                           | Ret st' (Some e') =>
                               if is_SkipDir e' then loop l' st'
                               else Ret st' (Some e')
                           | Ret st' None => loop l' st'
                           end
                       | LNode _ info1 _ _ =>
                           match walk filename nd1 st with
                           | Panic st' msg => Panic st' msg
                           | Ret st' (Some e') =>
                               if negb (info_IsDir info1) || negb (is_SkipDir e')
                               then Ret st' (Some e')
                               else loop l' st'
                           | Ret st' None => loop l' st'
                           end
                       end
                   end) names st1
            | _, _ => Ret st1 err1
            end
        end
  end.

(** [filepath.Walk(root, fn)]; [nd] is what [os.Lstat(root)] finds. *)
Definition Walk (root : string) (nd : lnode) (st : S) : outcome S :=
  match walk root nd st with
  | Panic st' msg => Panic st' msg
  | Ret st' (Some e) =>
      if is_SkipDir e || is_SkipAll e then Ret st' None else Ret st' (Some e)
  | Ret st' None => Ret st' None
  end.

End Walk.

(** The function literal passed to [filepath.Walk] in [count]. *)
Definition walkFn (w : world) : @WalkFunc run :=
  fun path info err st =>
    match info with
    | None => Panic st nil_dereference
    | Some info =>
        if negb (info_IsDir info) then
          let st1 := {| bc := bc st;
                        stdout := (stdout st ++ [(path ++ newline)%string])%list |} in
          match os_Open w path with
          | inl e => Ret st1 (Some e)
          | inr infile =>
              let '(bc', _, _) := Old.countFile (bc st1) infile in
              Ret {| bc := bc'; stdout := stdout st1 |} None
          end
        else Ret st None
    end.

(** [func (bc *bitcounter) count(root string) error]; [lstat] gives what
    [os.Lstat] finds at a root. *)
Definition count (lstat : string -> lnode) (w : world) (st : run) (root : string)
    : outcome run :=
  Walk (walkFn w) root (lstat root) st.

(** How [main] ends: it returns after the report, it panics with the error
    of [count], or a panic of the run time ends it. *)
Inductive exit : Type :=
| Returned (st : run)
| Panicked (e : error)
| Crashed (msg : string).

(** [&bitcounter{}]. *)
Definition start : run := {| bc := Old.mkBitcounter 0 0; stdout := [] |}.

(** [main], up to the report line. *)
Definition main (lstat : string -> lnode) (w : world) : exit :=
  match count lstat w start "." with
  | Panic _ msg => Crashed msg
  | Ret _ (Some e) => Panicked e
  | Ret st None => Returned st
  end.

End OldScan.

(** ** The directory of the tests as the current directory *)

Module Cwd.

Definition w : world :=
  {| dirfs := fun r =>
       if String.eqb r "." then inr Scenario.tree
       else inl (PathError "stat" "." Scenario.enoent);
     files := fun p =>
       if String.eqb p "./file1.txt" then inr (Scenario.file_stream Scenario.hello)
       else if String.eqb p "./file2.bin" then inr (Scenario.file_stream [xff; x00])
       else if String.eqb p "./empty.txt" then inr (Scenario.file_stream [])
       else if String.eqb p "./subdir/subfile.txt" then inr (Scenario.file_stream [xaa])
       else inl Scenario.enoent |}.

End Cwd.

(** * Properties *)

Local Open Scope list_scope.

(** ** Arithmetic of [int] *)

Lemma wrap64_range (z : Z) : GoInt.in_range (GoInt.wrap64 z).
Proof.
  unfold GoInt.in_range, GoInt.wrap64, GoInt.min_int, GoInt.max_int.
  pose proof (Z.mod_pos_bound (z + 2 ^ 63) (2 ^ 64) ltac:(lia)). lia.
Qed.

Lemma wrap64_small (z : Z) : GoInt.in_range z -> GoInt.wrap64 z = z.
Proof.
  unfold GoInt.in_range, GoInt.wrap64, GoInt.min_int, GoInt.max_int.
  intros H. rewrite Z.mod_small by lia. lia.
Qed.

Lemma wrap64_add_l (a b : Z) :
  GoInt.wrap64 (GoInt.wrap64 a + b) = GoInt.wrap64 (a + b).
Proof.
  unfold GoInt.wrap64.
  replace ((a + 2 ^ 63) mod 2 ^ 64 - 2 ^ 63 + b + 2 ^ 63)
    with ((a + 2 ^ 63) mod 2 ^ 64 + b) by lia.
  rewrite Zplus_mod_idemp_l. f_equal. f_equal. lia.
Qed.

Lemma add_0_r (a : Z) : GoInt.in_range a -> GoInt.add a 0 = a.
Proof. intros H. unfold GoInt.add. rewrite Z.add_0_r. now apply wrap64_small. Qed.

(** ** The inner loop and the reference population count *)

Lemma popcount_loop_byte (b : byte) :
  popcount_loop (Byte.to_N b) 0 = popcount (Byte.to_N b).
Proof. destruct b; vm_compute; reflexivity. Qed.

Lemma popcount_bounds (n : N) : 0 <= popcount n <= 8.
Proof. unfold popcount, bit. repeat destruct (N.testbit n _); lia. Qed.

Lemma popcount_bytes_app (xs ys : list byte) :
  popcount_bytes (xs ++ ys) = popcount_bytes xs + popcount_bytes ys.
Proof.
  induction xs as [| x xs IH]; simpl; [reflexivity |].
  rewrite IH. lia.
Qed.

Lemma popcount_bytes_bounds (bs : list byte) :
  0 <= popcount_bytes bs <= 8 * Z.of_nat (length bs).
Proof.
  induction bs as [| b bs IH]; simpl popcount_bytes; simpl length; [lia |].
  pose proof (popcount_bounds (Byte.to_N b)). lia.
Qed.

(** ** The range loop *)

Lemma range_bytes_app (xs ys : list byte) (o : Z) :
  range_bytes (xs ++ ys) o = range_bytes ys (range_bytes xs o).
Proof. unfold range_bytes. apply fold_left_app. Qed.

Lemma range_bytes_wrap (bs : list byte) (o : Z) :
  GoInt.in_range o ->
  range_bytes bs o = GoInt.wrap64 (o + popcount_bytes bs).
Proof.
  revert o. induction bs as [| b bs IH]; intros o Ho.
  - simpl. rewrite Z.add_0_r. symmetry. now apply wrap64_small.
  - change (range_bytes (b :: bs) o)
      with (range_bytes bs (GoInt.add o (popcount_loop (Byte.to_N b) 0))).
    rewrite IH by apply wrap64_range.
    rewrite popcount_loop_byte. unfold GoInt.add.
    rewrite wrap64_add_l. simpl popcount_bytes. f_equal. lia.
Qed.

Lemma range_bytes_in_range (bs : list byte) (o : Z) :
  GoInt.in_range o -> GoInt.in_range (range_bytes bs o).
Proof. intros H. rewrite range_bytes_wrap by assumption. apply wrap64_range. Qed.

(** ** Reading into the buffer *)

Lemma copy_length (dst src : list byte) : length (fst (copy dst src)) = length dst.
Proof.
  unfold copy. simpl. rewrite length_app, length_firstn, length_skipn. lia.
Qed.

Lemma copy_count_le (dst src : list byte) : (snd (copy dst src) <= length dst)%nat.
Proof. unfold copy. simpl. lia. Qed.

Lemma copy_prefix (dst src : list byte) :
  firstn (snd (copy dst src)) (fst (copy dst src)) = firstn (length dst) src.
Proof.
  unfold copy. simpl.
  rewrite firstn_app, length_firstn.
  replace (Nat.min (length src) (length dst) - Nat.min (length dst) (length src))%nat
    with 0%nat by lia.
  simpl. rewrite app_nil_r.
  rewrite Nat.min_comm, <- (length_firstn (length dst) src).
  apply firstn_all.
Qed.

Lemma copy_count (dst src : list byte) :
  snd (copy dst src) = length (firstn (length dst) src).
Proof. unfold copy. simpl. rewrite length_firstn. lia. Qed.

(** ** The read loop *)

Lemma countFile_loop_err (s : stream) (bc0 : bitcounter) (n : nat) (e : error) :
  countFile_loop s bc0 n (Some e) = (bc0, s, if is_EOF e then None else Some e).
Proof. destruct s; simpl; destruct (is_EOF e); reflexivity. Qed.

Lemma stream_failure_cons (r : read_result) (s : stream) :
  stream_failure (r :: s) =
  match rr_err r with
  | None => stream_failure s
  | Some e => if is_EOF e then None else Some e
  end.
Proof. unfold stream_failure. simpl. destruct (rr_err r); reflexivity. Qed.

(** The loop from its condition on, with a nil error and [bread] bytes of
    the buffer pending: they and the bytes of the reads up to the first
    error are tallied, nothing else changes. *)
Lemma countFile_loop_spec (s : stream) :
  forall (bc0 : bitcounter) (n : nat),
    (n <= length (inbuf bc0))%nat ->
    exists p,
      length p = length (inbuf bc0) /\
      countFile_loop s bc0 n None =
      ({| bytesRead :=
            GoInt.wrap64 (bytesRead bc0 + Z.of_nat n +
                          Z.of_nat (length (tallied (length (inbuf bc0)) s)));
          ones := range_bytes (firstn n (inbuf bc0) ++ tallied (length (inbuf bc0)) s)
                              (ones bc0);
          errs := errs bc0;
          inbuf := p |},
       unread s, stream_failure s).
Proof.
  induction s as [| r s IH]; intros bc0 n Hn.
  - simpl. eexists; split; [| unfold GoInt.add; rewrite app_nil_r, Z.add_0_r; reflexivity].
    rewrite firstn_nil. reflexivity.
  - cbn [countFile_loop]. unfold Read.
    destruct (copy (inbuf (loop_body bc0 n)) (rr_data r)) as [p n'] eqn:Hc.
    assert (Hp : p = fst (copy (inbuf bc0) (rr_data r))) by (simpl in Hc; now rewrite Hc).
    assert (Hn' : n' = snd (copy (inbuf bc0) (rr_data r))) by (simpl in Hc; now rewrite Hc).
    rewrite stream_failure_cons. cbn [tallied unread].
    destruct (rr_err r) as [e |].
    + rewrite countFile_loop_err.
      exists p. split; [subst p; apply copy_length |].
      simpl. unfold GoInt.add. rewrite app_nil_r, Z.add_0_r. reflexivity.
    + set (bc1 := {| bytesRead := bytesRead (loop_body bc0 n);
                     ones := ones (loop_body bc0 n);
                     errs := errs (loop_body bc0 n);
                     inbuf := p |}).
      assert (Hlen : length (inbuf bc1) = length (inbuf bc0))
        by (simpl; subst p; apply copy_length).
      destruct (IH bc1 n') as [p' [Hp' Heq]].
      { rewrite Hlen, Hn'. apply copy_count_le. }
      exists p'. split; [congruence |].
      rewrite Heq, Hlen. f_equal. f_equal.
      assert (Hpre : firstn n' p = firstn (length (inbuf bc0)) (rr_data r))
        by (subst p n'; apply copy_prefix).
      assert (Hcnt : n' = length (firstn (length (inbuf bc0)) (rr_data r)))
        by (subst n'; apply copy_count).
      subst bc1. cbn [bytesRead ones errs inbuf loop_body]. f_equal.
      * unfold GoInt.add. rewrite <- Z.add_assoc, wrap64_add_l, length_app, <- Hcnt.
        f_equal. lia.
      * rewrite Hpre, <- range_bytes_app. reflexivity.
Qed.

(** ** [countFile] *)

Lemma countFile_spec (bc0 : bitcounter) (s : stream) :
  exists p,
    length p = length (inbuf bc0) /\
    countFile bc0 s =
    ({| bytesRead :=
          GoInt.wrap64 (bytesRead bc0 +
                        Z.of_nat (length (tallied (length (inbuf bc0)) s)));
        ones := range_bytes (tallied (length (inbuf bc0)) s) (ones bc0);
        errs := errs bc0;
        inbuf := p |},
     unread s, stream_failure s).
Proof.
  destruct (countFile_loop_spec s bc0 0 (Nat.le_0_l _)) as [p [Hp Heq]].
  exists p. split; [exact Hp |].
  unfold countFile. rewrite Heq. simpl. rewrite Z.add_0_r. reflexivity.
Qed.

Section Prefix.

Variables (r : read_result) (rest : stream) (e : error).
Hypothesis Hr : rr_err r = Some e.

Lemma tallied_prefix (cap : nat) (pre : stream) :
  Forall (fun x => rr_err x = None) pre ->
  tallied cap (pre ++ r :: rest) = delivered cap pre.
Proof.
  unfold delivered. induction 1 as [| x l Hx Hl IH]; simpl.
  - now rewrite Hr.
  - rewrite Hx, IH. reflexivity.
Qed.

Lemma unread_prefix (pre : stream) :
  Forall (fun x => rr_err x = None) pre ->
  unread (pre ++ r :: rest) = rest.
Proof.
  induction 1 as [| x l Hx Hl IH]; simpl.
  - now rewrite Hr.
  - now rewrite Hx.
Qed.

Lemma stream_failure_prefix (pre : stream) :
  Forall (fun x => rr_err x = None) pre ->
  stream_failure (pre ++ r :: rest) = if is_EOF e then None else Some e.
Proof.
  induction 1 as [| x l Hx Hl IH]; simpl.
  - rewrite stream_failure_cons. now rewrite Hr.
  - rewrite stream_failure_cons. now rewrite Hx.
Qed.

End Prefix.

Lemma firstn_fits (cap : nat) (chunks : list (list byte)) :
  Forall (fun c => (length c <= cap)%nat) chunks ->
  delivered cap (map (fun c => mkRead c None) chunks) = concat chunks.
Proof.
  unfold delivered. induction 1 as [| c l Hc Hl IH]; simpl; [reflexivity |].
  rewrite IH, firstn_all2 by exact Hc. reflexivity.
Qed.

Lemma tallied_le_stream_bytes (cap : nat) (s : stream) :
  Z.of_nat (length (tallied cap s)) <= stream_bytes s /\ 0 <= stream_bytes s.
Proof.
  induction s as [| x s [IH1 IH2]]; simpl; [lia |].
  destruct (rr_err x); simpl; [lia |].
  rewrite length_app, length_firstn. lia.
Qed.

(** ** [fs.WalkDir] under a callback that always returns nil *)

Section NilCallback.

Context {S : Type}.
Variable fn : @WalkDirFunc S.
Hypothesis fn_nil : forall path d err st, snd (fn path d err st) = None.

Lemma fn_nil_eq path d err st : fn path d err st = (call fn st (Ev path d err), None).
Proof.
  simpl. rewrite <- (fn_nil path d err st). now destruct (fn path d err st).
Qed.

Lemma walkDir_nil (nd : fsnode) :
  forall name st,
    walkDir fn name nd st = (fold_left (call fn) (walk_events name nd) st, None).
Proof.
  induction nd as [n m entries rderr IH] using fsnode_ind.
  intros name st.
  assert (Hentries : forall st0,
    (fix walk_entries (dirs : list fsnode) (st2 : S) {struct dirs} : S * option error :=
       match dirs with
       | [] => (st2, None)
       | nd1 :: dirs' =>
           let name1 := path_Join name (Name (entry_of nd1)) in
           match walkDir fn name1 nd1 st2 with
           | (st', Some e) => if is_SkipDir e then (st', None) else (st', Some e)
           | (st', None) => walk_entries dirs' st'
           end
       end) entries st0 =
    (fold_left (call fn)
       (flat_map (fun nd1 => walk_events (path_Join name (Name (entry_of nd1))) nd1)
                 entries) st0, None)).
  { induction IH as [| nd1 l Hnd1 Hl IHl]; intros st0; [reflexivity |].
    cbn [flat_map]. cbn zeta. rewrite fold_left_app, Hnd1. apply IHl. }
  cbn [walkDir walk_events].
  rewrite fn_nil_eq.
  destruct (negb (IsDir (entry_of (Node n m entries rderr)))) eqn:Hdir;
    [reflexivity |].
  cbn [fold_left].
  destruct rderr as [e |].
  - rewrite fn_nil_eq, Hentries. reflexivity.
  - rewrite Hentries. reflexivity.
Qed.

Lemma WalkDir_nil (stat : error + fsnode) (root : string) (st : S) :
  WalkDir fn stat root st =
  (fold_left (call fn) (WalkDir_events stat root) st, None).
Proof.
  unfold WalkDir, WalkDir_events. destruct stat as [e | nd].
  - rewrite fn_nil_eq. reflexivity.
  - rewrite walkDir_nil. reflexivity.
Qed.

End NilCallback.

(** ** The callback of [count] *)

Lemma walkFn_nil (w : world) (root path : string) (d : option DirEntry)
    (err : option error) (st : run) :
  snd (walkFn w root path d err st) = None.
Proof.
  unfold walkFn.
  destruct err as [e |]; [reflexivity |].
  destruct d as [d |]; [| reflexivity].
  destruct (IsRegular (Type_ d)); [| reflexivity].
  destruct (os_Open w (full_path root path)) as [e | infile]; [reflexivity |].
  destruct (countFile _ infile) as [[bc' s'] [ce |]]; reflexivity.
Qed.

Lemma count_fold (w : world) (st : run) (root : string) :
  count w st root =
  (fold_left (step w root) (WalkDir_events (dirfs w root) ".") st, None).
Proof. unfold count, step. apply WalkDir_nil. apply walkFn_nil. Qed.

Lemma step_walk_error (w : world) (root path : string) (d : option DirEntry)
    (e : error) (st : run) :
  step w root st (Ev path d (Some e)) =
  append_err st ("walk error for " ++ path ++ ": " ++ Error e)%string.
Proof. reflexivity. Qed.

Lemma step_nil_entry (w : world) (root path : string) (st : run) :
  step w root st (Ev path None None) =
  append_err st ("nil fs.DirEntry: " ++ path)%string.
Proof. reflexivity. Qed.

Lemma step_not_regular (w : world) (root path : string) (d : DirEntry) (st : run) :
  IsRegular (Type_ d) = false ->
  step w root st (Ev path (Some d) None) = st.
Proof. intros H. unfold step, call, walkFn. now rewrite H. Qed.

Lemma step_open_error (w : world) (root path : string) (d : DirEntry)
    (cause : error) (st : run) :
  IsRegular (Type_ d) = true ->
  files w (full_path root path) = inl cause ->
  step w root st (Ev path (Some d) None) =
  append_err {| bc := bc st;
                stdout := stdout st ++ [(full_path root path ++ newline)%string] |}
             ("open " ++ full_path root path ++ ": " ++ Error cause)%string.
Proof.
  intros Hreg Hopen. unfold step, call, walkFn, os_Open.
  rewrite Hreg, Hopen. reflexivity.
Qed.

Lemma step_regular (w : world) (root path : string) (d : DirEntry)
    (s : stream) (st : run) :
  IsRegular (Type_ d) = true ->
  files w (full_path root path) = inr s ->
  exists p,
    length p = length (inbuf (bc st)) /\
    step w root st (Ev path (Some d) None) =
    {| bc :=
         {| bytesRead :=
              GoInt.wrap64 (bytesRead (bc st) +
                            Z.of_nat (length (tallied (length (inbuf (bc st))) s)));
            ones := range_bytes (tallied (length (inbuf (bc st))) s) (ones (bc st));
            errs :=
              errs (bc st) ++
              match stream_failure s with
              | Some e =>
                  [("error counting file " ++ full_path root path ++ ": " ++ Error e)%string]
              | None => []
              end;
            inbuf := p |};
       stdout := stdout st ++ [(full_path root path ++ newline)%string] |}.
Proof.
  intros Hreg Hopen.
  destruct (countFile_spec (bc st) s) as [p [Hp Heq]].
  exists p. split; [exact Hp |].
  unfold step, call, walkFn, os_Open. rewrite Hreg, Hopen.
  cbn [bc stdout]. rewrite Heq.
  destruct (stream_failure s) as [e |]; cbn [fst append_err bc stdout errs bytesRead ones inbuf].
  - reflexivity.
  - rewrite app_nil_r. reflexivity.
Qed.

(** The error log after one call: one entry more for a failure, the same
    otherwise. *)
Lemma step_errs (w : world) (root : string) (st : run) (ev : event) :
  errs (bc (step w root st ev)) =
  errs (bc st) ++ map log_entry (failures w root [ev]).
Proof.
  destruct ev as [path d err]. unfold failures. cbn [flat_map]. rewrite app_nil_r.
  destruct err as [e |]; [reflexivity |].
  destruct d as [d |]; [| reflexivity].
  cbn [failure_of].
  destruct (IsRegular (Type_ d)) eqn:Hreg.
  - destruct (files w (full_path root path)) as [cause | s] eqn:Hopen.
    + rewrite (step_open_error _ _ _ _ _ _ Hreg Hopen). reflexivity.
    + destruct (step_regular _ _ _ _ _ st Hreg Hopen) as [p [_ Heq]].
      rewrite Heq. cbn [bc errs]. destruct (stream_failure s); reflexivity.
  - rewrite (step_not_regular _ _ _ _ _ Hreg). cbn [map]. now rewrite app_nil_r.
Qed.

Lemma step_inbuf_length (w : world) (root : string) (st : run) (ev : event) :
  length (inbuf (bc (step w root st ev))) = length (inbuf (bc st)).
Proof.
  destruct ev as [path d err].
  destruct err as [e |]; [reflexivity |].
  destruct d as [d |]; [| reflexivity].
  destruct (IsRegular (Type_ d)) eqn:Hreg.
  - destruct (files w (full_path root path)) as [cause | s] eqn:Hopen.
    + rewrite (step_open_error _ _ _ _ _ _ Hreg Hopen). reflexivity.
    + destruct (step_regular _ _ _ _ _ st Hreg Hopen) as [p [Hp Heq]].
      rewrite Heq. exact Hp.
  - now rewrite (step_not_regular _ _ _ _ _ Hreg).
Qed.

Lemma failures_app (w : world) (root : string) (xs ys : list event) :
  failures w root (xs ++ ys) = failures w root xs ++ failures w root ys.
Proof. unfold failures. apply flat_map_app. Qed.

Lemma fold_step_errs (w : world) (root : string) (evs : list event) :
  forall st,
    errs (bc (fold_left (step w root) evs st)) =
    errs (bc st) ++ map log_entry (failures w root evs).
Proof.
  induction evs as [| ev evs IH]; intros st.
  - simpl. now rewrite app_nil_r.
  - cbn [fold_left]. rewrite IH, step_errs.
    change (ev :: evs) with ([ev] ++ evs).
    rewrite failures_app, map_app, app_assoc. reflexivity.
Qed.

Lemma fold_step_inbuf_length (w : world) (root : string) (evs : list event) :
  forall st,
    length (inbuf (bc (fold_left (step w root) evs st))) = length (inbuf (bc st)).
Proof.
  induction evs as [| ev evs IH]; intros st; [reflexivity |].
  cbn [fold_left]. rewrite IH. apply step_inbuf_length.
Qed.

(** ** The invariant of the totals *)

Lemma countFile_totals (bc0 : bitcounter) (s : stream) :
  invariant bc0 ->
  (bytesRead bc0 + stream_bytes s) * 8 <= GoInt.max_int ->
  invariant (fst (fst (countFile bc0 s))) /\
  bytesRead bc0 <= bytesRead (fst (fst (countFile bc0 s))) <= bytesRead bc0 + stream_bytes s /\
  ones bc0 <= ones (fst (fst (countFile bc0 s))) /\
  errs (fst (fst (countFile bc0 s))) = errs bc0.
Proof.
  unfold invariant. intros Hinv Hmax.
  destruct (countFile_spec bc0 s) as [p [_ Heq]]. rewrite Heq.
  cbn [fst bytesRead ones errs].
  set (t := tallied (length (inbuf bc0)) s).
  pose proof (tallied_le_stream_bytes (length (inbuf bc0)) s) as [Ht _].
  fold t in Ht.
  pose proof (popcount_bytes_bounds t) as Hpc.
  assert (Hmin : GoInt.min_int <= 0) by (unfold GoInt.min_int; lia).
  rewrite range_bytes_wrap by (unfold GoInt.in_range; lia).
  rewrite !wrap64_small by (unfold GoInt.in_range; lia).
  repeat split; lia.
Qed.

Lemma step_totals (w : world) (root : string) (st : run) (ev : event) :
  invariant (bc st) ->
  (bytesRead (bc st) + event_bytes w root ev) * 8 <= GoInt.max_int ->
  invariant (bc (step w root st ev)) /\
  bytesRead (bc st) <= bytesRead (bc (step w root st ev))
    <= bytesRead (bc st) + event_bytes w root ev /\
  ones (bc st) <= ones (bc (step w root st ev)).
Proof.
  intros Hinv Hmax.
  destruct ev as [path d err].
  destruct err as [e |]; [rewrite step_walk_error; simpl; unfold invariant in *; simpl; lia |].
  destruct d as [d |]; [| rewrite step_nil_entry; simpl; unfold invariant in *; simpl; lia].
  cbn [event_bytes] in *.
  destruct (IsRegular (Type_ d)) eqn:Hreg.
  - destruct (files w (full_path root path)) as [cause | s] eqn:Hopen.
    + rewrite (step_open_error _ _ _ _ _ _ Hreg Hopen).
      unfold invariant in *; simpl; lia.
    + destruct (countFile_totals (bc st) s Hinv Hmax) as [H1 [H2 [H3 _]]].
      destruct (countFile_spec (bc st) s) as [p0 [_ Hcf]].
      rewrite Hcf in H1, H2, H3. cbn [fst bytesRead ones] in H1, H2, H3.
      destruct (step_regular _ _ _ _ _ st Hreg Hopen) as [p [_ Heq]].
      rewrite Heq. unfold invariant in *. cbn [bc bytesRead ones] in *.
      repeat split; lia.
  - rewrite (step_not_regular _ _ _ _ _ Hreg). unfold invariant in *. lia.
Qed.

Lemma scan_bytes_nonneg (w : world) (root : string) (evs : list event) :
  0 <= scan_bytes w root evs.
Proof.
  induction evs as [| ev evs IH]; simpl; [lia |].
  assert (0 <= event_bytes w root ev); [| lia].
  destruct ev as [path d [e |]]; simpl; [lia |].
  destruct d as [d |]; [| lia].
  destruct (IsRegular (Type_ d)); [| lia].
  destruct (files w (full_path root path)) as [c | s]; [lia |].
  apply (tallied_le_stream_bytes 0 s).
Qed.

Lemma fold_step_totals (w : world) (root : string) (evs : list event) :
  forall st,
    invariant (bc st) ->
    (bytesRead (bc st) + scan_bytes w root evs) * 8 <= GoInt.max_int ->
    invariant (bc (fold_left (step w root) evs st)) /\
    bytesRead (bc st) <= bytesRead (bc (fold_left (step w root) evs st)) /\
    ones (bc st) <= ones (bc (fold_left (step w root) evs st)).
Proof.
  induction evs as [| ev evs IH]; intros st Hinv Hmax.
  - simpl. split; [exact Hinv | split; lia].
  - cbn [fold_left]. cbn [scan_bytes fold_right] in Hmax.
    fold (scan_bytes w root evs) in Hmax.
    pose proof (scan_bytes_nonneg w root evs) as Hnn.
    assert (Hev : 0 <= event_bytes w root ev)
      by (pose proof (scan_bytes_nonneg w root [ev]) as H; simpl in H; lia).
    destruct (step_totals w root st ev Hinv ltac:(lia)) as [H1 [H2 H3]].
    destruct (IH (step w root st ev) H1 ltac:(lia)) as [H4 [H5 H6]].
    split; [exact H4 | split; lia].
Qed.

(** ** Substrings *)

Lemma prefix_app (p s : string) : String.prefix p (p ++ s)%string = true.
Proof.
  induction p as [| a p IH]; simpl; [now destruct s |].
  destruct (ascii_dec a a) as [_ | Hne]; [exact IH | now elim Hne].
Qed.

Lemma Contains_unfold (s sub : string) :
  Contains s sub =
  String.prefix sub s ||
  match s with
  | EmptyString => false
  | String _ s' => Contains s' sub
  end.
Proof. destruct s; reflexivity. Qed.

Lemma Contains_prefix (sub s : string) : Contains (sub ++ s)%string sub = true.
Proof. rewrite Contains_unfold, prefix_app. reflexivity. Qed.

Lemma Contains_app (a s sub : string) :
  Contains s sub = true -> Contains (a ++ s)%string sub = true.
Proof.
  intros H. induction a as [| c a IH]; simpl; [exact H |].
  rewrite IH. apply orb_true_r.
Qed.

Lemma Contains_mid (a sub b : string) : Contains (a ++ sub ++ b)%string sub = true.
Proof. apply Contains_app, Contains_prefix. Qed.

Lemma Contains_end (a sub : string) : Contains (a ++ sub)%string sub = true.
Proof.
  assert (H : (sub ++ "")%string = sub)
    by (induction sub as [| x sub IH]; simpl; [reflexivity | now rewrite IH]).
  rewrite <- H at 1. apply Contains_mid.
Qed.

(** ** A stream whose first error comes after some clean reads *)

Lemma countFile_prefix (bc0 : bitcounter) (pre : stream) (r : read_result)
    (rest : stream) (e : error) :
  Forall (fun x => rr_err x = None) pre ->
  rr_err r = Some e ->
  GoInt.in_range (ones bc0) ->
  exists p,
    length p = length (inbuf bc0) /\
    countFile bc0 (pre ++ r :: rest) =
    ({| bytesRead :=
          GoInt.wrap64 (bytesRead bc0 +
                        Z.of_nat (length (delivered (length (inbuf bc0)) pre)));
        ones :=
          GoInt.wrap64 (ones bc0 +
                        popcount_bytes (delivered (length (inbuf bc0)) pre));
        errs := errs bc0;
        inbuf := p |},
     rest, if is_EOF e then None else Some e).
Proof.
  intros Hpre Hr Hones.
  destruct (countFile_spec bc0 (pre ++ r :: rest)) as [p [Hp Heq]].
  exists p. split; [exact Hp |].
  rewrite Heq.
  rewrite (tallied_prefix r rest e Hr _ pre Hpre).
  rewrite (unread_prefix r rest e Hr pre Hpre).
  rewrite (stream_failure_prefix r rest e Hr pre Hpre).
  rewrite range_bytes_wrap by exact Hones.
  reflexivity.
Qed.

Lemma chunked_split (chunks : list (list byte)) :
  chunked chunks = map (fun c => mkRead c None) chunks ++ mkRead [] (Some EOF) :: [].
Proof. reflexivity. Qed.

Lemma chunked_clean (chunks : list (list byte)) :
  Forall (fun x => rr_err x = None) (map (fun c => mkRead c None) chunks).
Proof. induction chunks; simpl; constructor; auto. Qed.

Lemma countFile_chunked (bc0 : bitcounter) (chunks : list (list byte)) :
  GoInt.in_range (ones bc0) ->
  Forall (fun c => (length c <= length (inbuf bc0))%nat) chunks ->
  exists p,
    length p = length (inbuf bc0) /\
    countFile bc0 (chunked chunks) =
    ({| bytesRead := GoInt.wrap64 (bytesRead bc0 + Z.of_nat (length (concat chunks)));
        ones := GoInt.wrap64 (ones bc0 + popcount_bytes (concat chunks));
        errs := errs bc0;
        inbuf := p |},
     [], None).
Proof.
  intros Hones Hfit.
  destruct (countFile_prefix bc0 _ (mkRead [] (Some EOF)) [] EOF
              (chunked_clean chunks) eq_refl Hones) as [p [Hp Heq]].
  exists p. split; [exact Hp |].
  rewrite chunked_split, Heq, firstn_fits by exact Hfit. reflexivity.
Qed.

Lemma walkFn_step (w : world) (root path : string) (d : option DirEntry)
    (err : option error) (st : run) :
  walkFn w root path d err st = (step w root st (Ev path d err), None).
Proof.
  unfold step, call. rewrite <- (walkFn_nil w root path d err st).
  now destruct (walkFn w root path d err st).
Qed.

Lemma new_bitcounter_cap : length (inbuf new_bitcounter) = Z.to_nat BUFF_SIZE.
Proof. unfold new_bitcounter, make_bytes. cbn [inbuf]. apply repeat_length. Qed.

Lemma popcount_bytes_repeat_ff (n : nat) :
  popcount_bytes (repeat xff n) = 8 * Z.of_nat n.
Proof.
  induction n as [| n IH]; [reflexivity |].
  change (repeat xff (Datatypes.S n)) with (xff :: repeat xff n).
  cbn [popcount_bytes fold_right]. fold (popcount_bytes (repeat xff n)).
  rewrite IH. change (popcount (Byte.to_N xff)) with 8. lia.
Qed.

Lemma popcount_bytes_concat_repeat (c : list byte) (n : nat) :
  popcount_bytes (concat (repeat c n)) = Z.of_nat n * popcount_bytes c.
Proof.
  induction n as [| n IH]; [reflexivity |].
  change (repeat c (Datatypes.S n)) with (c :: repeat c n).
  cbn [concat]. rewrite popcount_bytes_app, IH. lia.
Qed.

Lemma repeat_fits (c : list byte) (cap n : nat) :
  (length c <= cap)%nat ->
  Forall (fun x : list byte => (length x <= cap)%nat) (repeat c n).
Proof.
  intros Hc. induction n as [| n IH]; simpl; constructor; assumption.
Qed.

Lemma full_buffer_fits (b : byte) :
  (length (repeat b (Z.to_nat BUFF_SIZE)) <= length (inbuf new_bitcounter))%nat.
Proof. rewrite new_bitcounter_cap, repeat_length. apply Nat.le_refl. Qed.

(** ** The earlier read loop is the same loop *)

Lemma Old_countFile_loop (s : stream) :
  forall (bc0 : Old.bitcounter) (buf : list byte) (n : nat) (err : option error)
         (log : list string),
    Old.countFile_loop s bc0 buf n err =
    let '(b, s', e) :=
      countFile_loop s {| bytesRead := Old.bytesRead bc0; ones := Old.ones bc0;
                          errs := log; inbuf := buf |} n err in
    ({| Old.bytesRead := bytesRead b; Old.ones := ones b |}, s', e).
Proof.
  induction s as [| r s IH]; intros bc0 buf n err log.
  - destruct err as [e |]; simpl.
    + destruct (is_EOF e); destruct bc0; reflexivity.
    + reflexivity.
  - destruct err as [e |].
    + simpl. destruct (is_EOF e); destruct bc0; reflexivity.
    + cbn [Old.countFile_loop countFile_loop]. unfold Read.
      cbn [loop_body inbuf bytesRead ones errs].
      destruct (copy buf (rr_data r)) as [p n'].
      rewrite (IH _ p n' (rr_err r) log). reflexivity.
Qed.

Lemma Old_countFile_prefix (bc0 : Old.bitcounter) (pre : stream) (r : read_result)
    (rest : stream) (e : error) :
  Forall (fun x => rr_err x = None) pre ->
  rr_err r = Some e ->
  GoInt.in_range (Old.ones bc0) ->
  Old.countFile bc0 (pre ++ r :: rest) =
  ({| Old.bytesRead :=
        GoInt.wrap64 (Old.bytesRead bc0 + Z.of_nat (length (delivered 1000 pre)));
      Old.ones :=
        GoInt.wrap64 (Old.ones bc0 + popcount_bytes (delivered 1000 pre)) |},
   rest, if is_EOF e then None else Some e).
Proof.
  intros Hpre Hr Hones.
  unfold Old.countFile. rewrite (Old_countFile_loop _ _ _ _ _ []).
  fold (countFile {| bytesRead := Old.bytesRead bc0; ones := Old.ones bc0;
                     errs := []; inbuf := make_bytes 1000 |} (pre ++ r :: rest)).
  destruct (countFile_prefix
              {| bytesRead := Old.bytesRead bc0; ones := Old.ones bc0;
                 errs := []; inbuf := make_bytes 1000 |}
              pre r rest e Hpre Hr Hones) as [p [_ Heq]].
  rewrite Heq. cbn [bytesRead ones inbuf].
  unfold make_bytes. rewrite repeat_length. reflexivity.
Qed.

(** * The stated properties *)

(** C1.  Partial credit on a failure in the middle of a stream.  Let the
    reads [pre] of a stream come back with a nil error and the next read
    [r] with an error other than [io.EOF].  Then [countFile] returns that
    error and leaves the reads behind [r] unread; the byte total and the
    one-bit total have grown by exactly the bytes that [pre] delivered;
    the callback of [count] adds one entry to the error log and returns
    nil, and [count] as a whole returns nil. *)
Theorem countFile_partial_credit (w : world) (root path : string) (d : DirEntry)
    (st : run) (pre : stream) (r : read_result) (rest : stream) (e : error) :
  Forall (fun x => rr_err x = None) pre ->
  rr_err r = Some e ->
  is_EOF e = false ->
  GoInt.in_range (ones (bc st)) ->
  IsRegular (Type_ d) = true ->
  files w (full_path root path) = inr (pre ++ r :: rest) ->
  let got := delivered (length (inbuf (bc st))) pre in
  let bytes' := GoInt.wrap64 (bytesRead (bc st) + Z.of_nat (length got)) in
  let ones' := GoInt.wrap64 (ones (bc st) + popcount_bytes got) in
  let entry := ("error counting file " ++ full_path root path ++ ": " ++ Error e)%string in
  (exists p,
      countFile (bc st) (pre ++ r :: rest) =
      ({| bytesRead := bytes'; ones := ones'; errs := errs (bc st); inbuf := p |},
       rest, Some e)) /\
  (exists p,
      walkFn w root path (Some d) None st =
      ({| bc := {| bytesRead := bytes'; ones := ones';
                   errs := errs (bc st) ++ [entry]; inbuf := p |};
          stdout := stdout st ++ [(full_path root path ++ newline)%string] |},
       None)) /\
  (forall st0 root0, snd (count w st0 root0) = None).
Proof.
  intros Hpre Hr Hne Hones Hreg Hopen got bytes' ones' entry.
  split; [| split].
  - destruct (countFile_prefix (bc st) pre r rest e Hpre Hr Hones) as [p [_ Heq]].
    exists p. rewrite Heq, Hne. reflexivity.
  - destruct (step_regular w root path d _ st Hreg Hopen) as [p [_ Heq]].
    exists p. rewrite walkFn_step, Heq.
    rewrite (tallied_prefix r rest e Hr _ pre Hpre).
    rewrite (stream_failure_prefix r rest e Hr pre Hpre), Hne.
    rewrite range_bytes_wrap by exact Hones.
    reflexivity.
  - intros st0 root0. rewrite count_fold. reflexivity.
Qed.

Lemma countFile_partial_credit_witness :
  exists p,
    walkFn Scenario.w_flaky Scenario.root "bad.bin"
           (Some (mkDirEntry "bad.bin" ModeRegular)) None start =
    ({| bc := {| bytesRead := 5; ones := 21;
                 errs := ["error counting file /tmp/bitcount_test_dir/bad.bin: input/output error"%string];
                 inbuf := p |};
        stdout := [("/tmp/bitcount_test_dir/bad.bin" ++ newline)%string] |},
     None).
Proof.
  refine (proj1 (proj2
    (countFile_partial_credit Scenario.w_flaky Scenario.root "bad.bin"
       (mkDirEntry "bad.bin" ModeRegular) start
       [mkRead Scenario.hello None] (mkRead [] (Some Scenario.eio))
       [mkRead [xff] None] Scenario.eio _ _ _ _ _ _))).
  - repeat constructor.
  - reflexivity.
  - reflexivity.
  - split; discriminate.
  - reflexivity.
  - reflexivity.
Defined.

(** C2, as the description has it, fails: the totals are [int]s.  From
    the fresh accumulator, 2,305,843,009,214 reads of 500,000 bytes [0xFF]
    each leave a negative one-bit total, not the population count of the
    bytes read. *)
Lemma one_bit_total_wraps :
  let B := concat Scenario.ff_chunks in
  let bc1 := fst (fst (countFile new_bitcounter (chunked Scenario.ff_chunks))) in
  popcount_bytes B = 9223372036856000000 /\
  ones bc1 = -9223372036853551616 /\
  ones bc1 <> popcount_bytes B.
Proof.
  unfold Scenario.ff_chunks.
  assert (Hn : Z.of_nat (Z.to_nat 2305843009214) = 2305843009214)
    by (apply Z2Nat.id; lia).
  revert Hn. generalize (Z.to_nat 2305843009214). intros n Hn.
  set (B := concat (repeat (repeat xff (Z.to_nat 500000)) n)).
  set (bc1 := fst (fst (countFile new_bitcounter
                          (chunked (repeat (repeat xff (Z.to_nat 500000)) n))))).
  assert (Hpc : popcount_bytes B = 9223372036856000000).
  { unfold B. rewrite popcount_bytes_concat_repeat, popcount_bytes_repeat_ff, Hn.
    rewrite Z2Nat.id by lia. reflexivity. }
  assert (Ho : ones bc1 = -9223372036853551616).
  { destruct (countFile_chunked new_bitcounter (repeat (repeat xff (Z.to_nat 500000)) n))
      as [p [_ Heq]].
    - split; discriminate.
    - apply repeat_fits. rewrite new_bitcounter_cap, repeat_length.
      unfold BUFF_SIZE. lia.
    - unfold bc1. rewrite Heq. cbn [fst ones]. fold B. rewrite Hpc.
      reflexivity. }
  split; [exact Hpc |]. split; [exact Ho |].
  intros Heq.
  pose proof (eq_trans (eq_sym Ho) (eq_trans Heq Hpc)) as H.
  discriminate H.
Qed.

(** C2, amended.  Chunking invariance.  Whatever the chunks in which the
    reads of a stream deliver the bytes [B] (each chunk within the buffer,
    then end of stream), [countFile] returns nil, and the byte total and
    the one-bit total grow, in the 64-bit arithmetic of [int], by the
    length of [B] and by the reference population count of [B]; they are
    the exact sums when these fit an [int].  Two ways of splitting the same
    bytes, such as many reads and one read, give the same totals. *)
Theorem chunking_invariance (bc0 : bitcounter) (chunks : list (list byte)) :
  GoInt.in_range (ones bc0) ->
  Forall (fun c => (length c <= length (inbuf bc0))%nat) chunks ->
  let B := concat chunks in
  let bc1 := fst (fst (countFile bc0 (chunked chunks))) in
  countFile bc0 (chunked chunks) = (bc1, [], None) /\
  bytesRead bc1 = GoInt.wrap64 (bytesRead bc0 + Z.of_nat (length B)) /\
  ones bc1 = GoInt.wrap64 (ones bc0 + popcount_bytes B) /\
  (GoInt.in_range (bytesRead bc0 + Z.of_nat (length B)) ->
   GoInt.in_range (ones bc0 + popcount_bytes B) ->
   bytesRead bc1 = bytesRead bc0 + Z.of_nat (length B) /\
   ones bc1 = ones bc0 + popcount_bytes B) /\
  (forall chunks' : list (list byte),
      Forall (fun c => (length c <= length (inbuf bc0))%nat) chunks' ->
      concat chunks' = B ->
      bytesRead (fst (fst (countFile bc0 (chunked chunks')))) = bytesRead bc1 /\
      ones (fst (fst (countFile bc0 (chunked chunks')))) = ones bc1).
Proof.
  intros Hones Hfit B bc1.
  destruct (countFile_chunked bc0 chunks Hones Hfit) as [p [_ Heq]].
  assert (Hbc1 : bc1 =
    {| bytesRead := GoInt.wrap64 (bytesRead bc0 + Z.of_nat (length B));
       ones := GoInt.wrap64 (ones bc0 + popcount_bytes B);
       errs := errs bc0; inbuf := p |})
    by (unfold bc1; rewrite Heq; reflexivity).
  split; [rewrite Heq, Hbc1; reflexivity |].
  split; [rewrite Hbc1; reflexivity |].
  split; [rewrite Hbc1; reflexivity |].
  split.
  - intros Hb Ho. rewrite Hbc1. cbn [bytesRead ones].
    rewrite !wrap64_small by assumption. split; reflexivity.
  - intros chunks' Hfit' Hsame.
    destruct (countFile_chunked bc0 chunks' Hones Hfit') as [p' [_ Heq']].
    rewrite Heq', Hbc1, Hsame. split; reflexivity.
Qed.

Lemma chunking_invariance_witness :
  let bc1 := fst (fst (countFile new_bitcounter
                         (chunked [[x68; x65]; []; [x6c; x6c; x6f]]))) in
  bytesRead bc1 = 5 /\ ones bc1 = 21 /\
  bytesRead (fst (fst (countFile new_bitcounter (chunked [Scenario.hello])))) =
  bytesRead bc1.
Proof.
  assert (Hfit : forall chunks,
             Forall (fun c => (length c <= 5)%nat) chunks ->
             Forall (fun c : list byte =>
                       (length c <= length (inbuf new_bitcounter))%nat) chunks).
  { intros chunks H. eapply Forall_impl; [| exact H].
    intros c Hc. rewrite new_bitcounter_cap. unfold BUFF_SIZE. simpl in Hc. lia. }
  assert (H3 : Forall (fun c : list byte => (length c <= 5)%nat)
                      [[x68; x65]; []; [x6c; x6c; x6f]])
    by (repeat constructor).
  assert (H1 : Forall (fun c : list byte => (length c <= 5)%nat) [Scenario.hello])
    by (repeat constructor).
  pose proof (chunking_invariance new_bitcounter [[x68; x65]; []; [x6c; x6c; x6f]]
                ltac:(split; discriminate) (Hfit _ H3)) as H.
  cbv zeta in H. destruct H as [_ [_ [_ [Hexact Hsame]]]].
  intros bc1.
  destruct Hexact as [Hb Ho]; [split; discriminate | split; discriminate |].
  destruct (Hsame [Scenario.hello] (Hfit _ H1) eq_refl) as [Hb' _].
  split; [exact Hb | split; [exact Ho | exact Hb']].
Defined.

(** C3.  The inner loop computes the population count.  For every byte the
    loop [for ; b != 0; c++ { b &= b - 1 }], entered with [c = 0], leaves
    with [c] the number of ones among the eight bits of the byte, and [b]
    is zero after exactly that many passes; [0xFF] gives 8, [0x00] gives
    0, [0xAA] and [0x55] give 4 each. *)
Theorem popcount_loop_correct :
  (forall b : byte,
      popcount_loop (Byte.to_N b) 0 = popcount (Byte.to_N b) /\
      Nat.iter (Z.to_nat (popcount (Byte.to_N b))) clear_lowest (Byte.to_N b) = 0%N) /\
  popcount_loop (Byte.to_N xff) 0 = 8 /\
  popcount_loop (Byte.to_N x00) 0 = 0 /\
  popcount_loop (Byte.to_N xaa) 0 = 4 /\
  popcount_loop (Byte.to_N x55) 0 = 4.
Proof.
  split.
  - intros b. split; [apply popcount_loop_byte |].
    destruct b; vm_compute; reflexivity.
  - repeat split; vm_compute; reflexivity.
Qed.

(** C4.  [count] returns nil for every root and every state of the world,
    also when every file fails: the failures are in the error log, which
    has gained one entry for each.  For a root that cannot be examined the
    scan, started from the fresh accumulator, returns nil with both totals
    zero and exactly one entry in the error log, which contains the phrase
    "walk error". *)
Theorem count_returns_nil (w : world) (st : run) (root : string) :
  snd (count w st root) = None /\
  errs (bc (fst (count w st root))) =
    errs (bc st) ++ map log_entry (failures w root (WalkDir_events (dirfs w root) ".")) /\
  (forall e : error,
      dirfs w root = inl e ->
      let entry := ("walk error for .: " ++ Error e)%string in
      count w start root =
        ({| bc := {| bytesRead := 0; ones := 0; errs := [entry];
                     inbuf := make_bytes BUFF_SIZE |};
            stdout := [] |}, None) /\
      Contains entry "walk error" = true).
Proof.
  rewrite count_fold. cbn [fst snd].
  split; [reflexivity |].
  split; [apply fold_step_errs |].
  intros e He. split.
  - rewrite count_fold, He. reflexivity.
  - apply (Contains_prefix "walk error" (" for .: " ++ Error e)).
Qed.

Lemma count_returns_nil_witness :
  let root := "/this/path/definitely/does/not/exist/anywhere"%string in
  let entry := "walk error for .: stat .: no such file or directory"%string in
  count Scenario.w start root =
    ({| bc := {| bytesRead := 0; ones := 0; errs := [entry];
                 inbuf := make_bytes BUFF_SIZE |};
        stdout := [] |}, None) /\
  Contains entry "walk error" = true.
Proof.
  exact (proj2 (proj2 (count_returns_nil Scenario.w start
                         "/this/path/definitely/does/not/exist/anywhere"))
               (PathError "stat" "." Scenario.enoent) eq_refl).
Defined.

(** C5, as the description has it, fails: a root that cannot be used to
    start the traversal does not make [main] panic.  In the world of the
    tests the current directory "." cannot be examined, and [main] returns
    normally. *)
Lemma unusable_root_does_not_abort :
  dirfs Scenario.w "." = inl (PathError "stat" "." Scenario.enoent) /\
  panicked (main Scenario.w) = false.
Proof. split; vm_compute; reflexivity. Qed.

(** C5, amended.  [main] panics exactly when [count] returns a non-nil
    error, and [count] never does: [fs.WalkDir] hands the error of the
    root to the callback like any other, the callback logs it and returns
    nil.  So [main] always returns, with the state the callback leaves
    after the events of the walk; for a root that cannot be examined that
    is one "walk error" entry and both totals zero.  No error of an entry
    makes [main] panic. *)
Theorem main_never_panics (w : world) :
  (forall st e, main_after (st, Some e) = Panicked e) /\
  (forall st, main_after (st, None) = Returned st) /\
  main w = main_after (count w start ".") /\
  main w = Returned (fold_left (step w ".") (WalkDir_events (dirfs w ".") ".") start) /\
  (forall e : error,
      dirfs w "." = inl e ->
      main w =
      Returned {| bc := {| bytesRead := 0; ones := 0;
                           errs := [("walk error for .: " ++ Error e)%string];
                           inbuf := make_bytes BUFF_SIZE |};
                  stdout := [] |}).
Proof.
  split; [reflexivity |].
  split; [reflexivity |].
  split; [reflexivity |].
  split.
  - unfold main. rewrite count_fold. reflexivity.
  - intros e He. unfold main. rewrite count_fold, He. reflexivity.
Qed.

Lemma main_never_panics_witness :
  main Scenario.w =
  Returned {| bc := {| bytesRead := 0; ones := 0;
                       errs := ["walk error for .: stat .: no such file or directory"%string];
                       inbuf := make_bytes BUFF_SIZE |};
              stdout := [] |}.
Proof.
  exact (proj2 (proj2 (proj2 (proj2 (main_never_panics Scenario.w))))
               (PathError "stat" "." Scenario.enoent) eq_refl).
Defined.

(** C6, as the description has it, fails: the totals are [int]s, and
    beyond their range the additions wrap around.  [countFile], run from
    the fresh accumulator on 1,152,921,504,607 reads of a full buffer of
    [0xFF] each, leaves a negative one-bit total. *)
Lemma invariant_lost_on_overflow :
  invariant new_bitcounter /\
  ones (fst (fst (countFile new_bitcounter Scenario.huge_stream))) < 0 /\
  ~ invariant (fst (fst (countFile new_bitcounter Scenario.huge_stream))).
Proof.
  unfold Scenario.huge_stream, Scenario.full_buffer.
  assert (Hn : Z.of_nat (Z.to_nat 1152921504607) = 1152921504607)
    by (apply Z2Nat.id; lia).
  revert Hn. generalize (Z.to_nat 1152921504607). intros n Hn.
  assert (Hneg : ones (fst (fst (countFile new_bitcounter
                   (chunked (repeat (repeat xff (Z.to_nat BUFF_SIZE)) n))))) < 0).
  { destruct (countFile_chunked new_bitcounter
                (repeat (repeat xff (Z.to_nat BUFF_SIZE)) n))
      as [p [_ Heq]].
    - split; discriminate.
    - apply repeat_fits, full_buffer_fits.
    - rewrite Heq. cbn [fst ones].
      rewrite popcount_bytes_concat_repeat, popcount_bytes_repeat_ff, Hn.
      rewrite Z2Nat.id by (unfold BUFF_SIZE; lia).
      reflexivity. }
  split; [unfold invariant; simpl; lia |].
  split; [exact Hneg |].
  unfold invariant. lia.
Qed.

(** C6, amended.  The invariant of the accumulator.  The fresh accumulator
    has [0 <= ones <= bytesRead * 8].  [countFile] and [count] keep it and
    never lower either total, as long as eight times the byte total with
    the bytes on offer added stays within an [int].  Neither operation
    removes or changes an entry of the error log: [countFile] leaves it as
    it is, [count] appends. *)
Theorem totals_invariant :
  invariant new_bitcounter /\
  (forall (bc0 : bitcounter) (s : stream),
      invariant bc0 ->
      (bytesRead bc0 + stream_bytes s) * 8 <= GoInt.max_int ->
      let bc1 := fst (fst (countFile bc0 s)) in
      invariant bc1 /\ bytesRead bc0 <= bytesRead bc1 /\ ones bc0 <= ones bc1) /\
  (forall (w : world) (st : run) (root : string),
      invariant (bc st) ->
      (bytesRead (bc st) +
       scan_bytes w root (WalkDir_events (dirfs w root) ".")) * 8 <= GoInt.max_int ->
      let st1 := fst (count w st root) in
      invariant (bc st1) /\
      bytesRead (bc st) <= bytesRead (bc st1) /\
      ones (bc st) <= ones (bc st1)) /\
  (forall (bc0 : bitcounter) (s : stream),
      errs (fst (fst (countFile bc0 s))) = errs bc0) /\
  (forall (w : world) (st : run) (root : string),
      exists new, errs (bc (fst (count w st root))) = errs (bc st) ++ new).
Proof.
  split; [unfold invariant; simpl; lia |].
  split.
  { intros bc0 s Hinv Hmax bc1.
    destruct (countFile_totals bc0 s Hinv Hmax) as [H1 [H2 [H3 _]]].
    split; [exact H1 | split; [apply H2 | exact H3]]. }
  split.
  { intros w st root Hinv Hmax st1. unfold st1. rewrite count_fold. cbn [fst].
    apply fold_step_totals; assumption. }
  split.
  { intros bc0 s. destruct (countFile_spec bc0 s) as [p [_ Heq]].
    rewrite Heq. reflexivity. }
  intros w st root. rewrite count_fold. cbn [fst].
  eexists. apply fold_step_errs.
Qed.

Lemma totals_invariant_witness :
  invariant (fst (fst (countFile new_bitcounter Scenario.flaky_stream))) /\
  invariant (bc (fst (count Scenario.w start Scenario.root))).
Proof.
  destruct totals_invariant as [Hnew [Hfile [Hscan _]]].
  split.
  - apply (Hfile new_bitcounter Scenario.flaky_stream Hnew).
    vm_compute. discriminate.
  - apply (Hscan Scenario.w start Scenario.root Hnew).
    vm_compute. discriminate.
Defined.

(** C7.  Every failure is logged once.  A call of the callback appends to
    the error log the entry of the failure the call meets (an error of the
    traversal, a nil directory entry, a regular file that cannot be opened,
    a stream that fails in the middle) and nothing else; so a scan appends
    exactly the entries of the failures of its events, in their order.
    The entry of a failure contains its path and its cause. *)
Theorem every_failure_logged_once (w : world) (root : string) :
  (forall (st : run) (path : string) (d : option DirEntry) (err : option error),
      errs (bc (fst (walkFn w root path d err st))) =
      errs (bc st) ++ map log_entry (failures w root [Ev path d err]) /\
      (length (failures w root [Ev path d err]) <= 1)%nat) /\
  (forall st : run,
      errs (bc (fst (count w st root))) =
      errs (bc st) ++
      map log_entry (failures w root (WalkDir_events (dirfs w root) "."))) /\
  (forall f : failure,
      Contains (log_entry f) (failure_path f) = true /\
      Contains (log_entry f) (failure_cause f) = true).
Proof.
  split; [| split].
  - intros st path d err. split.
    + rewrite walkFn_step. apply step_errs.
    + unfold failures. cbn [flat_map]. rewrite app_nil_r.
      destruct (failure_of w root (Ev path d err)); simpl; lia.
  - intros st. rewrite count_fold. apply fold_step_errs.
  - intros f. destruct f as [path e | path | fullPath cause | fullPath e];
      cbn [log_entry failure_path failure_cause]; split.
    + apply Contains_mid.
    + apply Contains_app, Contains_app, Contains_end.
    + apply Contains_end.
    + apply (Contains_prefix "nil fs.DirEntry" (": " ++ path)).
    + apply Contains_mid.
    + apply Contains_app, Contains_app, Contains_end.
    + apply Contains_mid.
    + apply Contains_app, Contains_app, Contains_end.
Qed.

(** C8.  The directory of the tests: [file1.txt] holds "hello",
    [file2.bin] the bytes [0xFF 0x00], [empty.txt] nothing, and
    [subdir/subfile.txt] the byte [0xAA].  The scan, started from the
    fresh accumulator, returns nil with 33 one-bits, 8 bytes and an empty
    error log.  The files hold 21, 8, 0 and 4 one-bits; the empty file
    changes neither total and logs nothing; a directory entry leaves the
    state as it is. *)
Theorem scenario_totals :
  let result := count Scenario.w start Scenario.root in
  snd result = None /\
  ones (bc (fst result)) = 33 /\
  bytesRead (bc (fst result)) = 8 /\
  errs (bc (fst result)) = [] /\
  popcount_bytes Scenario.hello = 21 /\
  popcount_bytes [xff; x00] = 8 /\
  popcount_bytes [xaa] = 4 /\
  (let st := step Scenario.w Scenario.root start
               (Ev "empty.txt" (Some (mkDirEntry "empty.txt" ModeRegular)) None) in
   ones (bc st) = 0 /\ bytesRead (bc st) = 0 /\ errs (bc st) = []) /\
  (forall (st : run) (path name : string),
      walkFn Scenario.w Scenario.root path (Some (mkDirEntry name ModeDir)) None st
      = (st, None)).
Proof.
  cbv zeta.
  do 7 (split; [vm_compute; reflexivity |]).
  split; [split; [| split]; vm_compute; reflexivity |].
  intros st path name. reflexivity.
Qed.

(** C9.  Bytes that arrive together with an error are not counted.  Let
    the reads [pre] come back with a nil error and the next read [r] with
    an error, [io.EOF] or another.  Then the totals grow by the bytes of
    [pre] only, whatever bytes [r] carries, nothing behind [r] is read,
    and [countFile] returns nil for [io.EOF] and the error otherwise.  The
    same holds for the read loop of the earlier version. *)
Theorem error_read_not_tallied (bc0 : bitcounter) (old0 : Old.bitcounter)
    (pre : stream) (r : read_result) (rest : stream) (e : error) :
  Forall (fun x => rr_err x = None) pre ->
  rr_err r = Some e ->
  GoInt.in_range (ones bc0) ->
  GoInt.in_range (Old.ones old0) ->
  let got := delivered (length (inbuf bc0)) pre in
  let got_old := delivered 1000 pre in
  (exists p,
      countFile bc0 (pre ++ r :: rest) =
      ({| bytesRead := GoInt.wrap64 (bytesRead bc0 + Z.of_nat (length got));
          ones := GoInt.wrap64 (ones bc0 + popcount_bytes got);
          errs := errs bc0;
          inbuf := p |},
       rest, if is_EOF e then None else Some e)) /\
  Old.countFile old0 (pre ++ r :: rest) =
    ({| Old.bytesRead := GoInt.wrap64 (Old.bytesRead old0 + Z.of_nat (length got_old));
        Old.ones := GoInt.wrap64 (Old.ones old0 + popcount_bytes got_old) |},
     rest, if is_EOF e then None else Some e).
Proof.
  intros Hpre Hr Hones Hold got got_old. split.
  - destruct (countFile_prefix bc0 pre r rest e Hpre Hr Hones) as [p [_ Heq]].
    exists p. exact Heq.
  - apply Old_countFile_prefix; assumption.
Qed.

Lemma error_read_not_tallied_witness :
  (exists p,
      countFile new_bitcounter [mkRead [x01] None; mkRead [xff; xff] (Some EOF)] =
      ({| bytesRead := 1; ones := 1; errs := []; inbuf := p |}, [], None)) /\
  Old.countFile (Old.mkBitcounter 0 0)
    [mkRead [x01] None; mkRead [xff; xff] (Some Scenario.eio)] =
  (Old.mkBitcounter 1 1, [], Some Scenario.eio).
Proof.
  split.
  - exact (proj1 (error_read_not_tallied new_bitcounter (Old.mkBitcounter 0 0)
             [mkRead [x01] None] (mkRead [xff; xff] (Some EOF)) [] EOF
             ltac:(repeat constructor) eq_refl
             ltac:(split; discriminate) ltac:(split; discriminate))).
  - exact (proj2 (error_read_not_tallied new_bitcounter (Old.mkBitcounter 0 0)
             [mkRead [x01] None] (mkRead [xff; xff] (Some Scenario.eio)) []
             Scenario.eio
             ltac:(repeat constructor) eq_refl
             ltac:(split; discriminate) ltac:(split; discriminate))).
Defined.

(** C10.  The buffer.  [BUFF_SIZE] is 1,000,000, and the accumulator of
    [main] starts with a buffer of that length.  [countFile] changes the
    two totals and the contents of the buffer only: the length of the
    buffer and the error log are as before.  The length of the buffer is
    the same after a whole scan, so it is [BUFF_SIZE] when the scan of
    [main] is over. *)
Theorem buffer_frame :
  BUFF_SIZE = 1000000 /\
  Z.of_nat (length (inbuf new_bitcounter)) = BUFF_SIZE /\
  (forall (bc0 : bitcounter) (s : stream),
      length (inbuf (fst (fst (countFile bc0 s)))) = length (inbuf bc0) /\
      errs (fst (fst (countFile bc0 s))) = errs bc0) /\
  (forall (w : world) (st : run) (root : string),
      length (inbuf (bc (fst (count w st root)))) = length (inbuf (bc st))) /\
  (forall w : world,
      Z.of_nat (length (inbuf (bc (fst (count w start "."))))) = BUFF_SIZE).
Proof.
  assert (Hnew : Z.of_nat (length (inbuf new_bitcounter)) = BUFF_SIZE)
    by (rewrite new_bitcounter_cap; unfold BUFF_SIZE; lia).
  assert (Hscan : forall (w : world) (st : run) (root : string),
             length (inbuf (bc (fst (count w st root)))) = length (inbuf (bc st)))
    by (intros w st root; rewrite count_fold; apply fold_step_inbuf_length).
  split; [reflexivity |].
  split; [exact Hnew |].
  split; [| split].
  - intros bc0 s. destruct (countFile_spec bc0 s) as [p [Hp Heq]].
    rewrite Heq. split; [exact Hp | reflexivity].
  - exact Hscan.
  - intros w. rewrite Hscan. exact Hnew.
Qed.

(** * Further properties of the code *)

(** ** The inner loop, pass by pass *)

Lemma clear_lowest_byte (b : byte) :
  Byte.to_N b <> 0%N ->
  N.testbit (Byte.to_N b) (lowest_set_bit (Byte.to_N b)) = true /\
  (Byte.to_N b mod 2 ^ lowest_set_bit (Byte.to_N b) = 0)%N /\
  clear_lowest (Byte.to_N b) =
    (Byte.to_N b - 2 ^ lowest_set_bit (Byte.to_N b))%N /\
  popcount (clear_lowest (Byte.to_N b)) = popcount (Byte.to_N b) - 1 /\
  (clear_lowest (Byte.to_N b) < Byte.to_N b)%N.
Proof.
  destruct b; intros H; try (exfalso; apply H; reflexivity);
    vm_compute; repeat split; reflexivity.
Qed.

Lemma passes_nonzero_byte (b : byte) :
  forallb (fun k => negb (N.eqb (Nat.iter k clear_lowest (Byte.to_N b)) 0))
          (seq 0 (Z.to_nat (popcount (Byte.to_N b)))) = true.
Proof. destruct b; vm_compute; reflexivity. Qed.

Lemma passes_zero_byte (b : byte) :
  Nat.iter (Z.to_nat (popcount (Byte.to_N b))) clear_lowest (Byte.to_N b) = 0%N.
Proof. destruct b; vm_compute; reflexivity. Qed.

(** X1.  One pass of the inner loop, [b &= b - 1] on a byte that is not
    zero, clears the lowest bit that is set and no other: the bit at
    [lowest_set_bit] is set, the bits below it are not, and the byte
    becomes smaller by that power of two, with one one-bit less. *)
Theorem pass_clears_lowest_set_bit (b : byte) :
  Byte.to_N b <> 0%N ->
  let n := Byte.to_N b in
  let k := lowest_set_bit n in
  N.testbit n k = true /\
  (n mod 2 ^ k = 0)%N /\
  clear_lowest n = (n - 2 ^ k)%N /\
  popcount (clear_lowest n) = popcount n - 1 /\
  (clear_lowest n < n)%N.
Proof. intros H. cbv zeta. apply clear_lowest_byte. exact H. Qed.

Lemma pass_clears_lowest_set_bit_witness :
  clear_lowest (Byte.to_N x68) = Byte.to_N x60 /\
  popcount (clear_lowest (Byte.to_N x68)) = 2.
Proof.
  destruct (pass_clears_lowest_set_bit x68 ltac:(discriminate))
    as [_ [_ [Hc [Hp _]]]].
  split; [exact Hc | exact Hp].
Defined.

(** X2.  The inner loop makes as many passes as the byte has one-bits, not
    eight: the byte is zero after that many passes and not before. *)
Theorem loop_passes_equal_popcount (b : byte) :
  Nat.iter (Z.to_nat (popcount (Byte.to_N b))) clear_lowest (Byte.to_N b) = 0%N /\
  (forall k : nat,
      (k < Z.to_nat (popcount (Byte.to_N b)))%nat ->
      Nat.iter k clear_lowest (Byte.to_N b) <> 0%N).
Proof.
  split; [apply passes_zero_byte |].
  intros k Hk Hz.
  pose proof (passes_nonzero_byte b) as Hall.
  rewrite forallb_forall in Hall.
  specialize (Hall k ltac:(apply in_seq; lia)).
  rewrite Hz in Hall. discriminate Hall.
Qed.

Lemma loop_passes_equal_popcount_witness :
  Nat.iter 2 clear_lowest (Byte.to_N x68) <> 0%N.
Proof.
  apply (proj2 (loop_passes_equal_popcount x68) 2%nat).
  vm_compute. repeat constructor.
Defined.

(** ** [countFile] and the buffer, and one file after another *)

Lemma Forall_same_popcount (b : byte) (bs : list byte) :
  Forall (eq b) bs ->
  popcount_bytes bs = popcount (Byte.to_N b) * Z.of_nat (length bs).
Proof.
  induction 1 as [| x l Hx Hl IH]; [simpl; lia |].
  subst x. cbn [popcount_bytes fold_right length]. fold (popcount_bytes l).
  rewrite IH. lia.
Qed.

Lemma Forall_concat (P : byte -> Prop) (chunks : list (list byte)) :
  Forall (Forall P) chunks -> Forall P (concat chunks).
Proof.
  induction 1 as [| c l Hc Hl IH]; simpl; [constructor |].
  apply Forall_app. split; assumption.
Qed.

(** X3.  Bytes left in the buffer by an earlier file are never counted:
    the totals, the error and what is left unread depend on the length of
    the buffer only, not on what it holds when [countFile] starts. *)
Theorem countFile_ignores_buffer_contents (bc0 : bitcounter) (buf : list byte)
    (s : stream) :
  length buf = length (inbuf bc0) ->
  let bc0' := {| bytesRead := bytesRead bc0; ones := ones bc0;
                 errs := errs bc0; inbuf := buf |} in
  bytesRead (fst (fst (countFile bc0' s))) = bytesRead (fst (fst (countFile bc0 s))) /\
  ones (fst (fst (countFile bc0' s))) = ones (fst (fst (countFile bc0 s))) /\
  errs (fst (fst (countFile bc0' s))) = errs (fst (fst (countFile bc0 s))) /\
  snd (fst (countFile bc0' s)) = snd (fst (countFile bc0 s)) /\
  snd (countFile bc0' s) = snd (countFile bc0 s).
Proof.
  intros Hlen bc0'.
  destruct (countFile_spec bc0 s) as [p [_ Heq]].
  destruct (countFile_spec bc0' s) as [p' [_ Heq']].
  rewrite Heq, Heq'. unfold bc0'. cbn [fst snd bytesRead ones errs inbuf].
  rewrite Hlen. repeat split; reflexivity.
Qed.

Lemma countFile_ignores_buffer_contents_witness :
  ones (fst (fst (countFile
         {| bytesRead := 0; ones := 0; errs := []; inbuf := [xff; xff; xff] |}
         [mkRead [x01] None]))) =
  ones (fst (fst (countFile
         {| bytesRead := 0; ones := 0; errs := []; inbuf := [x00; x00; x00] |}
         [mkRead [x01] None]))).
Proof.
  exact (proj1 (proj2
    (countFile_ignores_buffer_contents
       {| bytesRead := 0; ones := 0; errs := []; inbuf := [x00; x00; x00] |}
       [xff; xff; xff] [mkRead [x01] None] eq_refl))).
Defined.

(** X4.  One file after another: reading two files one after the other
    into the same accumulator leaves the totals that reading their bytes
    as one file leaves, and the error log as it was. *)
Theorem countFile_sequential (bc0 : bitcounter) (c1 c2 : list (list byte)) :
  GoInt.in_range (ones bc0) ->
  Forall (fun c => (length c <= length (inbuf bc0))%nat) c1 ->
  Forall (fun c => (length c <= length (inbuf bc0))%nat) c2 ->
  let bc1 := fst (fst (countFile bc0 (chunked c1))) in
  let bc2 := fst (fst (countFile bc1 (chunked c2))) in
  let whole := fst (fst (countFile bc0 (chunked (c1 ++ c2)))) in
  bytesRead bc2 = bytesRead whole /\
  ones bc2 = ones whole /\
  errs bc2 = errs bc0.
Proof.
  intros Hones H1 H2 bc1 bc2 whole.
  destruct (countFile_chunked bc0 c1 Hones H1) as [p1 [Hp1 Heq1]].
  assert (Hbc1 : bc1 =
    {| bytesRead := GoInt.wrap64 (bytesRead bc0 + Z.of_nat (length (concat c1)));
       ones := GoInt.wrap64 (ones bc0 + popcount_bytes (concat c1));
       errs := errs bc0; inbuf := p1 |})
    by (unfold bc1; rewrite Heq1; reflexivity).
  destruct (countFile_chunked bc1 c2) as [p2 [_ Heq2]].
  { rewrite Hbc1. apply wrap64_range. }
  { rewrite Hbc1. cbn [inbuf]. rewrite Hp1. exact H2. }
  destruct (countFile_chunked bc0 (c1 ++ c2) Hones) as [p [_ Heq]].
  { apply Forall_app. split; assumption. }
  unfold bc2, whole. rewrite Heq2, Heq, Hbc1.
  cbn [fst bytesRead ones errs].
  rewrite concat_app, length_app, popcount_bytes_app, !wrap64_add_l.
  repeat split; f_equal; lia.
Qed.

Lemma countFile_sequential_witness :
  let bc1 := fst (fst (countFile new_bitcounter (chunked [[xff]]))) in
  ones (fst (fst (countFile bc1 (chunked [[xaa]])))) =
  ones (fst (fst (countFile new_bitcounter (chunked [[xff]; [xaa]])))).
Proof.
  assert (Hfit : forall c : list (list byte),
             Forall (fun x => (length x <= 1)%nat) c ->
             Forall (fun x : list byte =>
                       (length x <= length (inbuf new_bitcounter))%nat) c).
  { intros c H. eapply Forall_impl; [| exact H].
    intros x Hx. rewrite new_bitcounter_cap. unfold BUFF_SIZE. simpl in Hx. lia. }
  exact (proj1 (proj2
    (countFile_sequential new_bitcounter [[xff]] [[xaa]]
       ltac:(split; discriminate)
       (Hfit [[xff]] ltac:(repeat constructor))
       (Hfit [[xaa]] ltac:(repeat constructor))))).
Defined.

(** X5.  A file of one byte value: when every byte read is [b], in
    whatever chunks, the one-bit total grows by the population count of
    [b] times the number of bytes, in the arithmetic of [int]; a file of
    [0xFF] bytes adds eight times its size, also across the end of the
    buffer, and a file of [0x00] bytes adds nothing. *)
Theorem countFile_uniform_file (bc0 : bitcounter) (b : byte)
    (chunks : list (list byte)) :
  GoInt.in_range (ones bc0) ->
  Forall (fun c => (length c <= length (inbuf bc0))%nat) chunks ->
  Forall (Forall (eq b)) chunks ->
  let size := Z.of_nat (length (concat chunks)) in
  let bc1 := fst (fst (countFile bc0 (chunked chunks))) in
  snd (countFile bc0 (chunked chunks)) = None /\
  bytesRead bc1 = GoInt.wrap64 (bytesRead bc0 + size) /\
  ones bc1 = GoInt.wrap64 (ones bc0 + popcount (Byte.to_N b) * size) /\
  (b = xff -> ones bc1 = GoInt.wrap64 (ones bc0 + 8 * size)) /\
  (b = x00 -> ones bc1 = ones bc0).
Proof.
  intros Hones Hfit Hall size bc1.
  destruct (countFile_chunked bc0 chunks Hones Hfit) as [p [_ Heq]].
  pose proof (Forall_same_popcount b _ (Forall_concat _ _ Hall)) as Hpc.
  unfold bc1. rewrite Heq. cbn [fst snd bytesRead ones].
  rewrite Hpc. fold size.
  split; [reflexivity |]. split; [reflexivity |]. split; [reflexivity |].
  split; intros Hb; subst b.
  - reflexivity.
  - change (popcount (Byte.to_N x00)) with 0.
    rewrite Z.mul_0_l, Z.add_0_r. now apply wrap64_small.
Qed.

Lemma Forall_repeat (A : Type) (P : A -> Prop) (x : A) (n : nat) :
  P x -> Forall P (repeat x n).
Proof. intros H. induction n; simpl; constructor; assumption. Qed.

Lemma countFile_uniform_file_witness :
  let chunks := [repeat xff (Z.to_nat BUFF_SIZE); repeat xff (Z.to_nat 1000)] in
  ones (fst (fst (countFile new_bitcounter (chunked chunks)))) = 8008000.
Proof.
  intros chunks.
  assert (Hsize : Z.of_nat (length (concat chunks)) = 1001000).
  { change (concat chunks)
      with (repeat xff (Z.to_nat BUFF_SIZE) ++ repeat xff (Z.to_nat 1000) ++ []).
    rewrite !length_app, !repeat_length. unfold BUFF_SIZE. simpl length. lia. }
  assert (H : ones (fst (fst (countFile new_bitcounter (chunked chunks)))) =
              GoInt.wrap64 (ones new_bitcounter +
                            8 * Z.of_nat (length (concat chunks)))).
  { refine (proj1 (proj2 (proj2 (proj2
      (countFile_uniform_file new_bitcounter xff chunks _ _ _)))) eq_refl).
    - split; discriminate.
    - unfold chunks.
      apply Forall_cons; [apply full_buffer_fits |].
      apply Forall_cons; [| apply Forall_nil].
      rewrite new_bitcounter_cap, repeat_length. unfold BUFF_SIZE. lia.
    - unfold chunks.
      apply Forall_cons; [apply Forall_repeat; reflexivity |].
      apply Forall_cons; [apply Forall_repeat; reflexivity | apply Forall_nil]. }
  rewrite H, Hsize. reflexivity.
Defined.

(** ** What a scan reads, prints and leaves alone *)

Lemma scan_tallied_app (w : world) (root : string) (cap : nat) (xs ys : list event) :
  scan_tallied w root cap (xs ++ ys) =
  scan_tallied w root cap xs ++ scan_tallied w root cap ys.
Proof. unfold scan_tallied. apply flat_map_app. Qed.

(** The callback at an event that opens no stream: the accumulator is as
    before. *)
Lemma step_no_stream (w : world) (root : string) (st : run) (ev : event) :
  event_stream w root ev = None ->
  bytesRead (bc (step w root st ev)) = bytesRead (bc st) /\
  ones (bc (step w root st ev)) = ones (bc st) /\
  inbuf (bc (step w root st ev)) = inbuf (bc st).
Proof.
  destruct ev as [path d err]. cbn [event_stream].
  destruct err as [e |]; [intros _; rewrite step_walk_error; repeat split |].
  destruct d as [d |]; [| intros _; rewrite step_nil_entry; repeat split].
  destruct (IsRegular (Type_ d)) eqn:Hreg.
  - destruct (files w (full_path root path)) as [cause | s] eqn:Hopen;
      [| discriminate].
    intros _. rewrite (step_open_error _ _ _ _ _ _ Hreg Hopen). repeat split.
  - intros _. rewrite (step_not_regular _ _ _ _ _ Hreg). repeat split.
Qed.

Lemma step_stream (w : world) (root : string) (st : run) (ev : event) (s : stream) :
  event_stream w root ev = Some s ->
  bytesRead (bc (step w root st ev)) =
    GoInt.wrap64 (bytesRead (bc st) +
                  Z.of_nat (length (tallied (length (inbuf (bc st))) s))) /\
  ones (bc (step w root st ev)) =
    range_bytes (tallied (length (inbuf (bc st))) s) (ones (bc st)).
Proof.
  destruct ev as [path d err]. cbn [event_stream].
  destruct err as [e |]; [discriminate |].
  destruct d as [d |]; [| discriminate].
  destruct (IsRegular (Type_ d)) eqn:Hreg; [| discriminate].
  destruct (files w (full_path root path)) as [cause | s0] eqn:Hopen;
    [discriminate |].
  intros H. injection H as <-.
  destruct (step_regular _ _ _ _ _ st Hreg Hopen) as [p [_ Heq]].
  rewrite Heq. split; reflexivity.
Qed.

Lemma fold_step_tallied (w : world) (root : string) (evs : list event) :
  forall st,
    GoInt.in_range (bytesRead (bc st)) ->
    GoInt.in_range (ones (bc st)) ->
    let got := scan_tallied w root (length (inbuf (bc st))) evs in
    bytesRead (bc (fold_left (step w root) evs st)) =
      GoInt.wrap64 (bytesRead (bc st) + Z.of_nat (length got)) /\
    ones (bc (fold_left (step w root) evs st)) =
      GoInt.wrap64 (ones (bc st) + popcount_bytes got).
Proof.
  induction evs as [| ev evs IH]; intros st Hb Ho got.
  - unfold got. simpl. rewrite !Z.add_0_r, !wrap64_small by assumption.
    split; reflexivity.
  - cbn [fold_left].
    assert (Hstep :
      bytesRead (bc (step w root st ev)) =
        GoInt.wrap64 (bytesRead (bc st) +
          Z.of_nat (length (scan_tallied w root (length (inbuf (bc st))) [ev]))) /\
      ones (bc (step w root st ev)) =
        GoInt.wrap64 (ones (bc st) +
          popcount_bytes (scan_tallied w root (length (inbuf (bc st))) [ev]))).
    { unfold scan_tallied. cbn [flat_map]. rewrite app_nil_r.
      destruct (event_stream w root ev) as [s |] eqn:Hs.
      - destruct (step_stream w root st ev s Hs) as [H1 H2].
        rewrite H1, H2, range_bytes_wrap by assumption. split; reflexivity.
      - destruct (step_no_stream w root st ev Hs) as [H1 [H2 _]].
        rewrite H1, H2. simpl. rewrite !Z.add_0_r, !wrap64_small by assumption.
        split; reflexivity. }
    destruct Hstep as [H1 H2].
    destruct (IH (step w root st ev)) as [H3 H4].
    { rewrite H1. apply wrap64_range. }
    { rewrite H2. apply wrap64_range. }
    rewrite H3, H4, H1, H2, step_inbuf_length.
    unfold got. change (ev :: evs) with ([ev] ++ evs).
    rewrite scan_tallied_app, length_app, popcount_bytes_app, !wrap64_add_l.
    split; f_equal; lia.
Qed.

(** X6.  The totals of a scan.  After [count] the byte total has grown,
    in the arithmetic of [int], by the bytes tallied from the regular
    files that could be opened, those of a file that failed in the middle
    up to its failure, and the one-bit total by their population count;
    no other entry and no file that cannot be opened adds anything. *)
Theorem count_totals (w : world) (st : run) (root : string) :
  GoInt.in_range (bytesRead (bc st)) ->
  GoInt.in_range (ones (bc st)) ->
  let got := scan_tallied w root (length (inbuf (bc st)))
                          (WalkDir_events (dirfs w root) ".") in
  bytesRead (bc (fst (count w st root))) =
    GoInt.wrap64 (bytesRead (bc st) + Z.of_nat (length got)) /\
  ones (bc (fst (count w st root))) =
    GoInt.wrap64 (ones (bc st) + popcount_bytes got).
Proof.
  intros Hb Ho got. rewrite count_fold. cbn [fst].
  apply fold_step_tallied; assumption.
Qed.

Lemma count_totals_witness :
  bytesRead (bc (fst (count Scenario.w_flaky start Scenario.root))) = 6 /\
  ones (bc (fst (count Scenario.w_flaky start Scenario.root))) = 29.
Proof.
  exact (count_totals Scenario.w_flaky start Scenario.root
           ltac:(split; discriminate) ltac:(split; discriminate)).
Defined.

Lemma progress_lines_app (root : string) (xs ys : list event) :
  progress_lines root (xs ++ ys) = progress_lines root xs ++ progress_lines root ys.
Proof. unfold progress_lines. rewrite filter_app, map_app. reflexivity. Qed.

Lemma step_stdout (w : world) (root : string) (st : run) (ev : event) :
  stdout (step w root st ev) = stdout st ++ progress_lines root [ev].
Proof.
  destruct ev as [path d err]. unfold progress_lines. cbn [filter is_regular_event].
  destruct err as [e |]; [rewrite step_walk_error; simpl; now rewrite app_nil_r |].
  destruct d as [d |]; [| rewrite step_nil_entry; simpl; now rewrite app_nil_r].
  destruct (IsRegular (Type_ d)) eqn:Hreg.
  - cbn [map event_path].
    destruct (files w (full_path root path)) as [cause | s] eqn:Hopen.
    + rewrite (step_open_error _ _ _ _ _ _ Hreg Hopen). reflexivity.
    + destruct (step_regular _ _ _ _ _ st Hreg Hopen) as [p [_ Heq]].
      rewrite Heq. reflexivity.
  - rewrite (step_not_regular _ _ _ _ _ Hreg). simpl. now rewrite app_nil_r.
Qed.

Lemma fold_step_stdout (w : world) (root : string) (evs : list event) :
  forall st,
    stdout (fold_left (step w root) evs st) = stdout st ++ progress_lines root evs.
Proof.
  induction evs as [| ev evs IH]; intros st.
  - simpl. now rewrite app_nil_r.
  - cbn [fold_left]. rewrite IH, step_stdout.
    change (ev :: evs) with ([ev] ++ evs).
    rewrite progress_lines_app, app_assoc. reflexivity.
Qed.

(** X7.  The progress lines.  A scan writes one line to the standard
    output for every regular file it meets, in the order of the walk: the
    full path, which is the root itself for the path ".", and a newline.
    The line is written before the file is opened, so also for a file that
    cannot be opened; directories, other entries and errors of the walk
    write nothing. *)
Theorem count_progress_lines (w : world) (st : run) (root : string) :
  stdout (fst (count w st root)) =
    stdout st ++ progress_lines root (WalkDir_events (dirfs w root) ".") /\
  (forall (path : string) (d : DirEntry) (st0 : run),
      stdout (fst (walkFn w root path (Some d) None st0)) =
      if IsRegular (Type_ d)
      then stdout st0 ++ [(full_path root path ++ newline)%string]
      else stdout st0) /\
  full_path root "." = root.
Proof.
  split; [rewrite count_fold; apply fold_step_stdout |].
  split; [| reflexivity].
  intros path d st0. rewrite walkFn_step. cbn [fst]. rewrite step_stdout.
  unfold progress_lines. cbn [filter is_regular_event].
  destruct (IsRegular (Type_ d)); simpl; [reflexivity | apply app_nil_r].
Qed.

(** X8.  What adds nothing.  A call of the callback that opens no stream
    (an error of the walk, a nil entry, an entry that is not a regular
    file, a regular file that cannot be opened) returns nil and leaves
    both totals and the buffer as they were. *)
Theorem callback_without_stream_adds_nothing (w : world) (root path : string)
    (d : option DirEntry) (err : option error) (st : run) :
  event_stream w root (Ev path d err) = None ->
  snd (walkFn w root path d err st) = None /\
  bytesRead (bc (fst (walkFn w root path d err st))) = bytesRead (bc st) /\
  ones (bc (fst (walkFn w root path d err st))) = ones (bc st) /\
  inbuf (bc (fst (walkFn w root path d err st))) = inbuf (bc st).
Proof.
  intros H. rewrite walkFn_step. cbn [fst snd].
  split; [reflexivity |]. apply step_no_stream. exact H.
Qed.

Lemma callback_without_stream_adds_nothing_witness :
  bytesRead (bc (fst (walkFn Scenario.w Scenario.root "gone.txt"
                        (Some (mkDirEntry "gone.txt" ModeRegular)) None start))) = 0 /\
  bytesRead (bc (fst (walkFn Scenario.w Scenario.root "link"
                        (Some (mkDirEntry "link" ModeSymlink)) None start))) = 0.
Proof.
  split.
  - exact (proj1 (proj2 (callback_without_stream_adds_nothing Scenario.w
             Scenario.root "gone.txt" (Some (mkDirEntry "gone.txt" ModeRegular))
             None start eq_refl))).
  - exact (proj1 (proj2 (callback_without_stream_adds_nothing Scenario.w
             Scenario.root "link" (Some (mkDirEntry "link" ModeSymlink))
             None start eq_refl))).
Defined.

(** X9.  Scanning twice.  [count] does not reset the accumulator: a second
    scan of the same tree into the same accumulator appends the entries of
    the failures once more, writes the progress lines once more, and adds
    the tallied bytes and their one-bits a second time. *)
Theorem count_twice_accumulates (w : world) (st : run) (root : string) :
  GoInt.in_range (bytesRead (bc st)) ->
  GoInt.in_range (ones (bc st)) ->
  let evs := WalkDir_events (dirfs w root) "." in
  let got := scan_tallied w root (length (inbuf (bc st))) evs in
  let logged := map log_entry (failures w root evs) in
  let st2 := fst (count w (fst (count w st root)) root) in
  snd (count w (fst (count w st root)) root) = None /\
  errs (bc st2) = errs (bc st) ++ logged ++ logged /\
  stdout st2 = stdout st ++ progress_lines root evs ++ progress_lines root evs /\
  bytesRead (bc st2) = GoInt.wrap64 (bytesRead (bc st) + 2 * Z.of_nat (length got)) /\
  ones (bc st2) = GoInt.wrap64 (ones (bc st) + 2 * popcount_bytes got).
Proof.
  intros Hb Ho evs got logged st2.
  unfold st2. rewrite !count_fold. cbn [fst snd]. fold evs.
  destruct (fold_step_tallied w root evs st Hb Ho) as [H1 H2].
  cbv zeta in H1, H2. fold got in H1, H2.
  destruct (fold_step_tallied w root evs (fold_left (step w root) evs st))
    as [H3 H4].
  { rewrite H1. apply wrap64_range. }
  { rewrite H2. apply wrap64_range. }
  cbv zeta in H3, H4. rewrite fold_step_inbuf_length in H3, H4. fold got in H3, H4.
  split; [reflexivity |].
  split; [rewrite !fold_step_errs, <- app_assoc; reflexivity |].
  split; [rewrite !fold_step_stdout, <- app_assoc; reflexivity |].
  rewrite H3, H4, H1, H2, !wrap64_add_l.
  split; f_equal; lia.
Qed.

Lemma count_twice_accumulates_witness :
  let st2 := fst (count Scenario.w
                    (fst (count Scenario.w start Scenario.root)) Scenario.root) in
  bytesRead (bc st2) = 16 /\ ones (bc st2) = 66.
Proof.
  destruct (count_twice_accumulates Scenario.w start Scenario.root
              ltac:(split; discriminate) ltac:(split; discriminate))
    as [_ [_ [_ [Hb Ho]]]].
  split; [exact Hb | exact Ho].
Defined.



(** ** The report of [main] *)

Lemma scan_tallied_le_scan_bytes (w : world) (root : string) (cap : nat)
    (evs : list event) :
  Z.of_nat (length (scan_tallied w root cap evs)) <= scan_bytes w root evs.
Proof.
  induction evs as [| ev evs IH]; [simpl; lia |].
  change (ev :: evs) with ([ev] ++ evs).
  rewrite scan_tallied_app, length_app.
  cbn [app scan_bytes fold_right]. fold (scan_bytes w root evs).
  assert (Hev : Z.of_nat (length (scan_tallied w root cap [ev])) <= event_bytes w root ev).
  { unfold scan_tallied. cbn [flat_map]. rewrite app_nil_r.
    destruct ev as [path d err]. cbn [event_stream event_bytes].
    destruct err as [e |]; [simpl; lia |].
    destruct d as [d |]; [| simpl; lia].
    destruct (IsRegular (Type_ d)); [| simpl; lia].
    destruct (files w (full_path root path)) as [c | s]; [simpl; lia |].
    apply tallied_le_stream_bytes. }
  lia.
Qed.

Lemma report_in_range (b : bitcounter) :
  invariant b ->
  bytesRead b * 8 <= GoInt.max_int ->
  r_total (main_report b) = bytesRead b * 8 /\
  r_zeroes (main_report b) = bytesRead b * 8 - ones b.
Proof.
  unfold invariant, main_report, int_mul, int_sub. intros Hinv Hmax.
  cbn [r_total r_zeroes].
  assert (Hmin : GoInt.min_int <= 0) by (unfold GoInt.min_int; lia).
  rewrite (wrap64_small (bytesRead b * 8)) by (unfold GoInt.in_range; lia).
  rewrite wrap64_small by (unfold GoInt.in_range; lia).
  split; reflexivity.
Qed.

(** X11.  The numbers of the report.  When eight times the bytes that the
    files under "." have to offer fit an [int], the total that [main]
    reports is eight times the bytes read, the zero-bits it reports are
    not negative, and one-bits and zero-bits add up to the total. *)
Theorem main_report_adds_up (w : world) :
  scan_bytes w "." (WalkDir_events (dirfs w ".") ".") * 8 <= GoInt.max_int ->
  let b := bc (fst (count w start ".")) in
  let r := main_report b in
  r_total r = bytesRead b * 8 /\
  r_ones r = ones b /\
  r_ones r + r_zeroes r = r_total r /\
  0 <= r_ones r <= r_total r /\
  0 <= r_zeroes r <= r_total r.
Proof.
  intros Hmax b r.
  assert (Hinv0 : invariant (bc start)) by (unfold invariant; simpl; lia).
  assert (Hb0 : bytesRead (bc start) = 0) by reflexivity.
  pose proof (scan_bytes_nonneg w "." (WalkDir_events (dirfs w ".") ".")) as Hnn.
  destruct (fold_step_totals w "." (WalkDir_events (dirfs w ".") ".") start Hinv0
              ltac:(rewrite Hb0; lia)) as [Hinv _].
  destruct (fold_step_tallied w "." (WalkDir_events (dirfs w ".") ".") start
              ltac:(split; discriminate) ltac:(split; discriminate)) as [Hbytes _].
  cbv zeta in Hbytes. rewrite Hb0 in Hbytes.
  pose proof (scan_tallied_le_scan_bytes w "." (length (inbuf (bc start)))
                (WalkDir_events (dirfs w ".") ".")) as Hle.
  assert (Hmin : GoInt.min_int <= 0) by (unfold GoInt.min_int; lia).
  rewrite wrap64_small in Hbytes by (unfold GoInt.in_range; lia).
  assert (Hfold : b = bc (fold_left (step w ".") (WalkDir_events (dirfs w ".") ".") start))
    by (unfold b; rewrite count_fold; reflexivity).
  rewrite <- Hfold in Hinv, Hbytes.
  destruct (report_in_range b Hinv ltac:(lia)) as [Ht Hz].
  unfold r. rewrite Hz, Ht. unfold invariant in Hinv.
  cbn [main_report r_ones]. lia.
Qed.

Lemma main_report_adds_up_witness :
  let r := main_report (bc (fst (count Cwd.w start "."))) in
  r_total r = 64 /\ r_ones r = 33 /\ r_zeroes r = 31.
Proof.
  pose proof (main_report_adds_up Cwd.w ltac:(vm_compute; discriminate)) as H.
  cbv zeta in H. destruct H as [Ht [Ho [Hsum _]]].
  assert (Hb : bytesRead (bc (fst (count Cwd.w start "."))) = 8)
    by (vm_compute; reflexivity).
  assert (Hones : ones (bc (fst (count Cwd.w start "."))) = 33)
    by (vm_compute; reflexivity).
  cbv zeta. rewrite Hb in Ht. rewrite Hones in Ho.
  split; [exact Ht |]. split; [exact Ho |]. lia.
Defined.

(** ** The scan of the earlier version *)

Lemma Old_countFile_spec (bc0 : Old.bitcounter) (s : stream) :
  Old.countFile bc0 s =
  ({| Old.bytesRead :=
        GoInt.wrap64 (Old.bytesRead bc0 + Z.of_nat (length (tallied 1000 s)));
      Old.ones := range_bytes (tallied 1000 s) (Old.ones bc0) |},
   unread s, stream_failure s).
Proof.
  unfold Old.countFile. rewrite (Old_countFile_loop _ _ _ _ _ []).
  fold (countFile {| bytesRead := Old.bytesRead bc0; ones := Old.ones bc0;
                     errs := []; inbuf := make_bytes 1000 |} s).
  destruct (countFile_spec
              {| bytesRead := Old.bytesRead bc0; ones := Old.ones bc0;
                 errs := []; inbuf := make_bytes 1000 |} s) as [p [_ Heq]].
  rewrite Heq. cbn [bytesRead ones inbuf].
  unfold make_bytes. rewrite repeat_length. reflexivity.
Qed.



(** X12.  The earlier callback calls [info.IsDir()] before it looks at
    [err]: an entry whose [Lstat] fails reaches it with a nil [info], and
    the program ends in the panic of a nil dereference, at the root as at
    the first entry of the root directory, before anything is counted. *)
Theorem old_scan_panics_on_lstat_failure (lstat : string -> OldScan.lnode)
    (w : world) :
  (forall (name : string) (e : error),
      lstat "." = OldScan.LFail name e ->
      OldScan.main lstat w = OldScan.Crashed OldScan.nil_dereference) /\
  (forall (st : OldScan.run) (root name name1 : string) (e : error)
          (rest : list OldScan.lnode),
      lstat root = OldScan.LNode name ModeDir (OldScan.LFail name1 e :: rest) None ->
      OldScan.count lstat w st root = OldScan.Panic st OldScan.nil_dereference).
Proof.
  split.
  - intros name e H. unfold OldScan.main, OldScan.count, OldScan.Walk.
    rewrite H. reflexivity.
  - intros st root name name1 e rest H.
    unfold OldScan.count, OldScan.Walk. rewrite H. reflexivity.
Qed.

Lemma old_scan_panics_on_lstat_failure_witness :
  OldScan.main (fun _ => OldScan.LFail "." Scenario.enoent) Scenario.w =
  OldScan.Crashed OldScan.nil_dereference.
Proof.
  exact (proj1 (old_scan_panics_on_lstat_failure
                  (fun _ => OldScan.LFail "." Scenario.enoent) Scenario.w)
               "." Scenario.enoent eq_refl).
Defined.





(** X15.  In the earlier version a directory that cannot be read is
    passed over in silence: the callback returns nil for a directory
    whatever error comes with it, so the scan of a root whose entries
    cannot be read returns nil with the state unchanged, and [main]
    returns normally with nothing counted. *)
Theorem old_scan_skips_unreadable_directory (lstat : string -> OldScan.lnode)
    (w : world) (st : OldScan.run) (root name : string)
    (names : list OldScan.lnode) (e : error) :
  lstat root = OldScan.LNode name ModeDir names (Some e) ->
  OldScan.count lstat w st root = OldScan.Ret st None /\
  (root = "."%string -> OldScan.main lstat w = OldScan.Returned OldScan.start).
Proof.
  intros Hl.
  assert (Hc : forall st0, OldScan.count lstat w st0 root = OldScan.Ret st0 None).
  { intros st0. unfold OldScan.count, OldScan.Walk. rewrite Hl. reflexivity. }
  split; [apply Hc |].
  intros ->. unfold OldScan.main. rewrite Hc. reflexivity.
Qed.

Lemma old_scan_skips_unreadable_directory_witness :
  OldScan.main
    (fun _ => OldScan.LNode "." ModeDir [] (Some (ErrString "permission denied")))
    Cwd.w =
  OldScan.Returned OldScan.start.
Proof.
  exact (proj2 (old_scan_skips_unreadable_directory
                  (fun _ => OldScan.LNode "." ModeDir []
                              (Some (ErrString "permission denied")))
                  Cwd.w OldScan.start "." "." [] (ErrString "permission denied")
                  eq_refl) eq_refl).
Defined.

(** ** A directory that cannot be read in full *)

(** X16.  When the entries of the root directory cannot be read in full,
    [count] logs one walk error for "." and goes on with the entries that
    were read: the result is the one of the callback run over their
    events, after the entry for the error. *)
Theorem count_goes_on_after_readdir_error (w : world) (st : run)
    (root name : string) (entries : list fsnode) (e : error) :
  dirfs w root = inr (Node name ModeDir entries (Some e)) ->
  let below :=
    flat_map (fun nd1 => walk_events (path_Join "." (Name (entry_of nd1))) nd1)
             entries in
  count w st root =
    (fold_left (step w root) below
       (append_err st ("walk error for .: " ++ Error e)%string), None) /\
  errs (bc (fst (count w st root))) =
    errs (bc st) ++ ("walk error for .: " ++ Error e)%string
                 :: map log_entry (failures w root below).
Proof.
  intros Hroot below.
  assert (Hc : count w st root =
    (fold_left (step w root) below
       (append_err st ("walk error for .: " ++ Error e)%string), None)).
  { rewrite count_fold, Hroot. reflexivity. }
  split; [exact Hc |].
  rewrite Hc. cbn [fst]. rewrite fold_step_errs.
  cbn [append_err bc errs]. rewrite <- app_assoc. reflexivity.
Qed.

Lemma count_goes_on_after_readdir_error_witness :
  let w := {| dirfs := fun _ =>
                inr (Node "." ModeDir [Scenario.leaf "file1.txt"]
                          (Some (ErrString "input/output error")));
              files := files Cwd.w |} in
  bytesRead (bc (fst (count w start "."))) = 5 /\
  errs (bc (fst (count w start "."))) =
    ["walk error for .: input/output error"%string].
Proof.
  intros w.
  destruct (count_goes_on_after_readdir_error w start "." "."
              [Scenario.leaf "file1.txt"] (ErrString "input/output error") eq_refl)
    as [Hc He].
  split; [rewrite Hc; vm_compute; reflexivity | exact He].
Defined.

(** ** Empty reads and the error [countFile] returns *)

Lemma concat_all_nil (chunks : list (list byte)) :
  Forall (eq []) chunks -> concat chunks = [].
Proof.
  induction 1 as [| c l Hc Hl IH]; [reflexivity |].
  subst c. simpl. exact IH.
Qed.

(** X17.  Empty reads.  Reads that deliver no bytes and a nil error do
    not end the loop and change nothing: after any number of them and the
    end of the stream, as for a file of zero bytes, [countFile] returns
    nil with the totals and the error log as they were. *)
Theorem countFile_empty_reads (bc0 : bitcounter) (chunks : list (list byte)) :
  GoInt.in_range (bytesRead bc0) ->
  GoInt.in_range (ones bc0) ->
  Forall (eq []) chunks ->
  let r := countFile bc0 (chunked chunks) in
  snd r = None /\
  snd (fst r) = [] /\
  bytesRead (fst (fst r)) = bytesRead bc0 /\
  ones (fst (fst r)) = ones bc0 /\
  errs (fst (fst r)) = errs bc0.
Proof.
  intros Hb Ho Hall r.
  destruct (countFile_chunked bc0 chunks Ho) as [p [_ Heq]].
  { eapply Forall_impl; [| exact Hall]. intros c <-. apply Nat.le_0_l. }
  unfold r. rewrite Heq, (concat_all_nil chunks Hall).
  cbn [fst snd bytesRead ones errs popcount_bytes fold_right length].
  rewrite !Z.add_0_r, !wrap64_small by assumption.
  repeat split; reflexivity.
Qed.

Lemma countFile_empty_reads_witness :
  let r := countFile new_bitcounter (chunked [[]; []; []]) in
  snd r = None /\ bytesRead (fst (fst r)) = 0 /\ ones (fst (fst r)) = 0.
Proof.
  destruct (countFile_empty_reads new_bitcounter [[]; []; []]
              ltac:(split; discriminate) ltac:(split; discriminate)
              ltac:(repeat constructor)) as [H1 [_ [H2 [H3 _]]]].
  cbv zeta. split; [exact H1 | split; [exact H2 | exact H3]].
Defined.

Lemma stream_failure_not_EOF (s : stream) : stream_failure s <> Some EOF.
Proof.
  unfold stream_failure. destruct (first_error s) as [e |]; [| discriminate].
  destruct e; simpl; discriminate.
Qed.

(** X18.  [countFile] never returns [io.EOF]: the end of the stream is its
    normal end, and the error it returns, if any, is the first error of
    the stream that is not [io.EOF]; the same holds for the earlier
    version. *)
Theorem countFile_never_returns_EOF (bc0 : bitcounter) (old0 : Old.bitcounter)
    (s : stream) :
  snd (countFile bc0 s) <> Some EOF /\
  snd (countFile bc0 s) = stream_failure s /\
  snd (Old.countFile old0 s) <> Some EOF /\
  snd (Old.countFile old0 s) = stream_failure s.
Proof.
  destruct (countFile_spec bc0 s) as [p [_ Heq]].
  rewrite Heq, Old_countFile_spec. cbn [snd].
  repeat split; try reflexivity; apply stream_failure_not_EOF.
Qed.
